(** * Geographic context generation: a shallow embedding

    The two source files of the plugin are embedded side by side:

    - [src/js/generateGeographicContext.js] (raw referential, no progress):
      [getChild], [GenerateGeoContextRec], [GenerateGeoContext];
    - the graph-service flavour with a progress cell:
      [getChildrenByNames], [generateGeoContextRec], [generateGeoContext].

    Asynchronous generators are embedded as state-passing functions over the
    graph store that return the ordered log of what the generator did; the
    values it yields are the [Yield] entries of that log. *)

From Stdlib Require Import String Ascii Bool Arith PeanoNat ZArith QArith Lia.
From Stdlib Require Import List Permutation.
Import ListNotations.

Set Warnings "-register-all".

Local Open Scope nat_scope.
Local Open Scope list_scope.

(** ** Data model *)

Definition NodeId := nat.

(** A graph node as the generators see it: identity, name, type.  The type
    is [layout.types[depth]], which is [undefined] ([None]) out of range. *)
Record Node := mkNode {
  node_id : NodeId;
  node_name : string;
  node_type : option string
}.

(** One element of a leaf array: the generators read [child.dbId] and
    [child.name]; [properties] are the values of the layout keys, used only
    by the grouping step. *)
Record Item := mkItem {
  dbId : Z;
  name : string;
  properties : list string
}.

(** The temporary tree: a [Map] from names to subtrees (in insertion
    order), or an array of items. *)
Unset Elimination Schemes.
Inductive TmpTree :=
| Group (entries : list (string * TmpTree))
| Leaf (items : list Item).
Set Elimination Schemes.

Record Layout := mkLayout {
  types : list string;
  keys : list string;
  relations : list string
}.

(** [layout.relations[depth]] and [layout.types[depth]]: a JavaScript array
    read, [undefined] out of range. *)
Definition relation_at (layout : Layout) (depth : nat) : option string :=
  nth_error (relations layout) depth.

Definition type_at (layout : Layout) (depth : nat) : option string :=
  nth_error (types layout) depth.

(** ** The graph store

    The store itself belongs to the graph library, not to the plugin.  It is
    kept as the ordered list of parent/relation/child links, the list of BIM
    object attachments made through the BIM object service, the flag saying
    whether the BIM object context exists, and the identity the next new
    node receives. *)

Record Edge := mkEdge {
  edge_parent : NodeId;
  edge_relation : option string;
  edge_child : Node;
  edge_context : NodeId
}.

Record BimRef := mkBimRef {
  bim_context : NodeId;
  bim_parent : NodeId;
  bim_dbId : Z;
  bim_name : string
}.

Record Graph := mkGraph {
  edges : list Edge;
  bimObjects : list BimRef;
  bimContext : bool;
  next_id : NodeId
}.

Definition relation_eqb (a b : option string) : bool :=
  match a, b with
  | Some x, Some y => String.eqb x y
  | None, None => true
  | _, _ => false
  end.

Definition edge_matches (parent : NodeId) (relationName : option string) (e : Edge) : bool :=
  Nat.eqb (edge_parent e) parent && relation_eqb (edge_relation e) relationName.

(** [parent.getChildren(relationName)]: the children linked to [parent]
    under that relation, oldest link first. *)
Definition getChildren (g : Graph) (parent : NodeId) (relationName : option string) : list Node :=
  map edge_child (filter (edge_matches parent relationName) (edges g)).

(** [new SpinalNode(name, type)] / [SpinalGraphService.createNode]. *)
Definition newNode (g : Graph) (nodeName : string) (type : option string) : Node * Graph :=
  (mkNode (next_id g) nodeName type,
   mkGraph (edges g) (bimObjects g) (bimContext g) (S (next_id g))).

Definition addChildInContext (g : Graph) (parent : NodeId) (child : Node)
    (relationName : option string) (context : NodeId) : Graph :=
  mkGraph (edges g ++ [mkEdge parent relationName child context])
          (bimObjects g) (bimContext g) (next_id g).

(** [bimObjectService.addBIMObject(context, parent, dbId, name)]: the
    service keeps its attachments under a relation of its own, apart from
    the layout's relations. *)
Definition addBIMObject (g : Graph) (context parent : NodeId) (id : Z) (nm : string) : Graph :=
  mkGraph (edges g) (bimObjects g ++ [mkBimRef context parent id nm])
          (bimContext g) (next_id g).

(** [bimObjectService.getContext()]: "Create BIMObjectContext if it isn't
    already done". *)
Definition getContext (g : Graph) : Graph :=
  mkGraph (edges g) (bimObjects g) true (next_id g).

(** ** What a generator does, in order *)

Inductive PendingWrite :=
| AddChildInContext (parent : NodeId) (child : Node) (relationName : option string) (context : NodeId)
| AddBIMObject (context parent : NodeId) (id : Z) (nm : string).

Inductive Event :=
| LayoutRelation (depth : nat)   (* layout.relations[depth] is read *)
| LayoutType (depth : nat)       (* layout.types[depth] is read *)
| GetChildren (parent : NodeId) (relationName : option string)
| NewNode (n : Node)
| Yield (w : PendingWrite).

Definition yielded (evs : list Event) : list PendingWrite :=
  flat_map (fun e => match e with Yield w => [w] | _ => [] end) evs.

Definition resolver_calls (evs : list Event) : list (NodeId * option string) :=
  flat_map (fun e => match e with GetChildren p r => [(p, r)] | _ => [] end) evs.

Definition created_nodes (evs : list Event) : list Node :=
  flat_map (fun e => match e with NewNode n => [n] | _ => [] end) evs.

Definition layout_reads (evs : list Event) : list Event :=
  filter (fun e => match e with LayoutRelation _ | LayoutType _ => true | _ => false end) evs.

Definition name_is (nodeName : string) (child : Node) : bool :=
  String.eqb (node_name child) nodeName.

(** The body of both leaf loops:
    [for (let child of children) yield bimObjectService.addBIMObject(...)]. *)
Fixpoint attachLeaf (context parent : NodeId) (items : list Item) (g : Graph)
    : list Event * Graph :=
  match items with
  | [] => ([], g)
  | child :: rest =>
      let g1 := addBIMObject g context parent (dbId child) (name child) in
      let '(evs, g2) := attachLeaf context parent rest g1 in
      (Yield (AddBIMObject context parent (dbId child) (name child)) :: evs, g2)
  end.

(** The loop shared by both generators:

    [for (let child of found) { let [name, value] = entries.next().value; ... }]

    [found] is walked in step with the entries of the map; [recurse] is the
    recursive call of the generator that runs the loop. *)
Section EntryLoop.
Variables (context parent : Node) (layout : Layout) (depth : nat).
Variable recurse : Node -> TmpTree -> Graph -> list Event * Graph.

(** The branch taken when the lookup gave nothing: create the node, link
    it under the parent, yield the link's promise.  (The graph-service
    flavour then reads the new node back with [getInfo], which changes
    nothing.) *)
Definition createChild (nodeName : string) (g : Graph) : Node * list Event * Graph :=
  let '(c, g0) := newNode g nodeName (type_at layout depth) in
  (c,
   [LayoutType depth; NewNode c; LayoutRelation depth;
    Yield (AddChildInContext (node_id parent) c
             (relation_at layout depth) (node_id context))],
   addChildInContext g0 (node_id parent) c
     (relation_at layout depth) (node_id context)).

Fixpoint forEachFound (entries : list (string * TmpTree)) (found : list (option Node))
    (g : Graph) {struct entries} : list Event * Graph :=
  match found, entries with
  | [], _ => ([], g)
  | _ :: _, [] => ([], g)   (* not reached: one lookup result per entry *)
  | child :: found', (nodeName, value) :: entries' =>
      let '(child', evs1, g1) :=
        match child with
        | Some c => (c, [], g)
        | None => createChild nodeName g
        end in
      let '(evs2, g2) := recurse child' value g1 in
      let '(evs3, g3) := forEachFound entries' found' g2 in
      (evs1 ++ evs2 ++ evs3, g3)
  end.
End EntryLoop.

(** ** src/js/generateGeographicContext.js *)

(** [getChild(parent, nodeName, relationName)]: one resolver call, then the
    first child whose name is [nodeName], or [null]. *)
Definition getChild (g : Graph) (parent : Node) (nodeName : string)
    (relationName : option string) : option Node :=
  find (name_is nodeName) (getChildren g (node_id parent) relationName).

Fixpoint GenerateGeoContextRec (context parent : Node) (children : TmpTree)
    (layout : Layout) (depth : nat) (g : Graph) {struct children}
    : list Event * Graph :=
  match children with
  | Group entries =>
      (* for (let [name, ] of children) promises.push(getChild(...)) *)
      let parentChildren :=
        map (fun e => getChild g parent (fst e) (relation_at layout depth)) entries in
      let lookups :=
        flat_map (fun _ : string * TmpTree =>
                    [LayoutRelation depth;
                     GetChildren (node_id parent) (relation_at layout depth)])
                 entries in
      let '(evs, g') :=
        forEachFound context parent layout depth
          (fun child value g1 =>
             GenerateGeoContextRec context child value layout (S depth) g1)
          entries parentChildren g in
      (lookups ++ evs, g')
  | Leaf items => attachLeaf (node_id context) (node_id parent) items g
  end.

(** ** The graph-service flavour, with progress *)

(** [getChildrenByNames(parent, nodeNames, relationName)]: one resolver
    call, then one [find] per requested name. *)
Definition getChildrenByNames (g : Graph) (parent : Node) (nodeNames : list string)
    (relationName : option string) : list (option Node) :=
  let children := getChildren g (node_id parent) relationName in
  map (fun nodeName => find (name_is nodeName) children) nodeNames.

Fixpoint generateGeoContextRec (context parent : Node) (children : TmpTree)
    (layout : Layout) (depth : nat) (g : Graph) {struct children}
    : list Event * Graph :=
  match children with
  | Group entries =>
      let foundChildren :=
        getChildrenByNames g parent (map fst entries) (relation_at layout depth) in
      let lookups :=
        [LayoutRelation depth;
         GetChildren (node_id parent) (relation_at layout depth)] in
      let '(evs, g') :=
        forEachFound context parent layout depth
          (fun child value g1 =>
             generateGeoContextRec context child value layout (S depth) g1)
          entries foundChildren g in
      (lookups ++ evs, g')
  | Leaf items => attachLeaf (node_id context) (node_id parent) items g
  end.

(** ** The materializer as the specification words it

    One lookup of the parent's existing children, then for each entry in
    insertion order: reuse the existing child of that name, or create one and
    emit its write, and recurse. *)
Section EntryByName.
Variables (context parent : Node) (layout : Layout) (depth : nat).
Variable recurse : Node -> TmpTree -> Graph -> list PendingWrite * Graph.
Variable existing : list Node.

Fixpoint forEachName (entries : list (string * TmpTree)) (g : Graph)
    : list PendingWrite * Graph :=
  match entries with
  | [] => ([], g)
  | (nodeName, subtree) :: rest =>
      match find (name_is nodeName) existing with
      | Some c =>
          let '(ws1, g1) := recurse c subtree g in
          let '(ws2, g2) := forEachName rest g1 in
          (ws1 ++ ws2, g2)
      | None =>
          let '(c, g0) := newNode g nodeName (type_at layout depth) in
          let g1 := addChildInContext g0 (node_id parent) c
                      (relation_at layout depth) (node_id context) in
          let '(ws1, g2) := recurse c subtree g1 in
          let '(ws2, g3) := forEachName rest g2 in
          (AddChildInContext (node_id parent) c
             (relation_at layout depth) (node_id context) :: ws1 ++ ws2, g3)
      end
  end.
End EntryByName.

Fixpoint attachAll (context parent : NodeId) (items : list Item) (g : Graph)
    : list PendingWrite * Graph :=
  match items with
  | [] => ([], g)
  | it :: rest =>
      let '(ws, g') :=
        attachAll context parent rest (addBIMObject g context parent (dbId it) (name it)) in
      (AddBIMObject context parent (dbId it) (name it) :: ws, g')
  end.

Fixpoint materialize (context parent : Node) (datasetNode : TmpTree)
    (layout : Layout) (depth : nat) (g : Graph) {struct datasetNode}
    : list PendingWrite * Graph :=
  match datasetNode with
  | Group entries =>
      forEachName context parent layout depth
        (fun c subtree g1 => materialize context c subtree layout (S depth) g1)
        (getChildren g (node_id parent) (relation_at layout depth))
        entries g
  | Leaf items => attachAll (node_id context) (node_id parent) items g
  end.

(** ** Waiting for the file system, and the two entry points

    [waitForFileSystem(promises)] resolves once every node of the batch is
    known to the file system; it is polled on a timer.  The embedding logs
    the call with the batch it was given and goes on: a run's log is the log
    of an execution in which every wait returns. *)

Inductive JsValue :=
| JsUndefined
| JsNode (n : Node).

(** [progression.value]: a JavaScript number.  The only division of the
    program has the positive numerator 80 * 300, so dividing by a zero
    length gives [Infinity].  Numbers are kept as exact rationals, where
    the program holds doubles: the statements below name a value of
    progress only where the program's arithmetic is exact (10, 10 + 10,
    20 + 24000 / 150, 100). *)
Inductive JsNumber :=
| Finite (q : Q)
| PlusInfinity.

Definition js_add (a b : JsNumber) : JsNumber :=
  match a, b with
  | Finite x, Finite y => Finite (Qred (x + y))
  | _, _ => PlusInfinity
  end.

Definition js_div_pos (a : Q) (n : nat) : JsNumber :=
  match n with
  | O => PlusInfinity
  | S _ => Finite (Qred (a / inject_Z (Z.of_nat n)))
  end.

Definition js_leb (a b : JsNumber) : bool :=
  match a, b with
  | Finite x, Finite y => Qle_bool x y
  | Finite _, PlusInfinity => true
  | PlusInfinity, PlusInfinity => true
  | PlusInfinity, Finite _ => false
  end.

Inductive Step :=
| HasProperties (referencial : list Z) (layoutKeys : list string)
| GetContext
| CreateTmpTree (props : list Item)
| SetProgress (value : JsNumber)
| Push (promise : PendingWrite)
| WaitForFileSystem (promises : list PendingWrite).

Record Run := mkRun {
  run_steps : list Step;
  run_events : list Event;
  run_graph : Graph;
  run_result : JsValue
}.

Definition MAX_NON_SYNCHRONIZED_NODES : nat := 300.
Definition PROGRESS_BAR_SIZE_GET_PROPS : Q := 10.
Definition PROGRESS_BAR_SIZE_CREATE_TREE : Q := 10.
Definition PROGRESS_BAR_SIZE_CREATE_GRAPH : Q := 80.

(** The [for await] loop of [GenerateGeoContext]: the batch is waited for
    when its length is exactly the maximum, and is kept as it is. *)
Fixpoint GenerateGeoContext_loop (stream promises : list PendingWrite)
    : list Step * list PendingWrite :=
  match stream with
  | [] => ([], promises)
  | promise :: rest =>
      let promises1 := promises ++ [promise] in
      let '(steps, final) := GenerateGeoContext_loop rest promises1 in
      if Nat.eqb (length promises1) MAX_NON_SYNCHRONIZED_NODES
      then (Push promise :: WaitForFileSystem promises1 :: steps, final)
      else (Push promise :: steps, final)
  end.

(** The [for await] loop of [generateGeoContext]: at the maximum the
    progress advances, the batch is waited for, and [promises = []]. *)
Fixpoint generateGeoContext_loop (incrProg : JsNumber) (stream promises : list PendingWrite)
    (progression : JsNumber) : list Step * list PendingWrite * JsNumber :=
  match stream with
  | [] => ([], promises, progression)
  | promise :: rest =>
      let promises1 := promises ++ [promise] in
      if Nat.eqb (length promises1) MAX_NON_SYNCHRONIZED_NODES
      then
        let progression1 := js_add progression incrProg in
        let '(steps, final, progression2) :=
          generateGeoContext_loop incrProg rest [] progression1 in
        (Push promise :: SetProgress progression1 :: WaitForFileSystem promises1 :: steps,
         final, progression2)
      else
        let '(steps, final, progression2) :=
          generateGeoContext_loop incrProg rest promises1 progression in
        (Push promise :: steps, final, progression2)
  end.

(** [if (promises.length !== 0) await waitForFileSystem(promises)]. *)
Definition finalWait (promises : list PendingWrite) : list Step :=
  match promises with
  | [] => []
  | _ :: _ => [WaitForFileSystem promises]
  end.

Section EntryPoints.
(** [hasProperties] (its [valid] result) and [createTmpTree] are modules of
    the plugin that the two entry points import. *)
Variable hasProperties : list Z -> list string -> list Item.
Variable createTmpTree : list Item -> TmpTree.

Definition GenerateGeoContext (context : Node) (layout : Layout) (referencial : list Z)
    (g : Graph) : Run :=
  let props := hasProperties referencial (keys layout) in
  let g0 := getContext g in
  let started := [HasProperties referencial (keys layout); GetContext] in
  if Nat.eqb (length props) 0
  then mkRun started [] g0 JsUndefined
  else
    let tmpTree := createTmpTree props in
    let '(evs, g1) := GenerateGeoContextRec context context tmpTree layout 0 g0 in
    let '(steps, promises) := GenerateGeoContext_loop (yielded evs) [] in
    mkRun (started ++ CreateTmpTree props :: steps ++ finalWait promises)
          evs g1 JsUndefined.

Definition generateGeoContext (context : Node) (layout : Layout) (props : list Item)
    (g : Graph) : Run :=
  let progression0 := Finite PROGRESS_BAR_SIZE_GET_PROPS in
  let tmpTree := createTmpTree props in
  let incrProg :=
    js_div_pos (PROGRESS_BAR_SIZE_CREATE_GRAPH
                * inject_Z (Z.of_nat MAX_NON_SYNCHRONIZED_NODES))
               (length props) in
  let progression1 := js_add progression0 (Finite PROGRESS_BAR_SIZE_CREATE_TREE) in
  let '(evs, g1) := generateGeoContextRec context context tmpTree layout 0 g in
  let '(steps, promises, _) :=
    generateGeoContext_loop incrProg (yielded evs) [] progression1 in
  mkRun (SetProgress progression0 :: CreateTmpTree props :: SetProgress progression1
           :: steps ++ finalWait promises ++ [SetProgress (Finite 100)])
        evs g1 JsUndefined.
End EntryPoints.

(** ** Reading a run's log *)

Definition progress_history (steps : list Step) : list JsNumber :=
  flat_map (fun s => match s with SetProgress v => [v] | _ => [] end) steps.

Definition waits (steps : list Step) : list (list PendingWrite) :=
  flat_map (fun s => match s with WaitForFileSystem b => [b] | _ => [] end) steps.

(** The number of writes pushed and not yet covered by a wait that
    returned, after each step; [n] is that number before the first step. *)
Fixpoint unconfirmed (n : nat) (steps : list Step) : list nat :=
  match steps with
  | [] => []
  | Push _ :: rest => S n :: unconfirmed (S n) rest
  | WaitForFileSystem _ :: rest => 0 :: unconfirmed 0 rest
  | _ :: rest => n :: unconfirmed n rest
  end.

(** The values progress takes over [flushes] successive waits. *)
Fixpoint advance (incrProg progression : JsNumber) (flushes : nat) : list JsNumber :=
  match flushes with
  | O => []
  | S k =>
      let progression1 := js_add progression incrProg in
      progression1 :: advance incrProg progression1 k
  end.

Fixpoint non_decreasing (l : list JsNumber) : bool :=
  match l with
  | a :: ((b :: _) as rest) => js_leb a b && non_decreasing rest
  | _ => true
  end.

Definition in_percent_range (v : JsNumber) : bool :=
  js_leb (Finite 0) v && js_leb v (Finite 100).

(** ** Predicates on trees, layouts and stores *)

Fixpoint TmpTree_induction (P : TmpTree -> Prop)
    (HGroup : forall entries, Forall (fun e => P (snd e)) entries -> P (Group entries))
    (HLeaf : forall items, P (Leaf items)) (t : TmpTree) {struct t} : P t :=
  match t with
  | Group entries =>
      HGroup entries
        ((fix all (es : list (string * TmpTree)) : Forall (fun e => P (snd e)) es :=
            match es with
            | [] => Forall_nil _
            | (n, t') :: es' =>
                Forall_cons (n, t') (TmpTree_induction P HGroup HLeaf t') (all es')
            end) entries)
  | Leaf items => HLeaf items
  end.

(** A [Map] has each key once. *)
Inductive map_keys_unique : TmpTree -> Prop :=
| keys_leaf items : map_keys_unique (Leaf items)
| keys_group entries :
    NoDup (map fst entries) ->
    Forall (fun e => map_keys_unique (snd e)) entries ->
    map_keys_unique (Group entries).

Definition layout_length (layout : Layout) : nat :=
  Nat.min (length (types layout)) (length (relations layout)).

(** Every map of the tree, the root being at [depth], lies at a depth below
    [len]. *)
Inductive within (len : nat) : TmpTree -> nat -> Prop :=
| within_leaf items depth : within len (Leaf items) depth
| within_group entries depth :
    depth < len ->
    Forall (fun e => within len (snd e) (S depth)) entries ->
    within len (Group entries) depth.

Definition read_in_bounds (layout : Layout) (e : Event) : Prop :=
  match e with
  | LayoutRelation d => d < length (relations layout) /\ relation_at layout d <> None
  | LayoutType d => d < length (types layout) /\ type_at layout d <> None
  | _ => True
  end.

(** The tree is already there under [parent]: every name of every map
    resolves, level by level. *)
Inductive covered (layout : Layout) (g : Graph) : Node -> TmpTree -> nat -> Prop :=
| covered_leaf parent items depth : covered layout g parent (Leaf items) depth
| covered_group parent entries depth :
    Forall (fun e => exists c,
              find (name_is (fst e))
                   (getChildren g (node_id parent) (relation_at layout depth)) = Some c
              /\ covered layout g c (snd e) (S depth)) entries ->
    covered layout g parent (Group entries) depth.

(** From [g] to [g'] the store only gained links, each under the relation
    of some depth from [depth] on that the layout has. *)
Definition grows (layout : Layout) (depth : nat) (g g' : Graph) : Prop :=
  exists added,
    edges g' = edges g ++ added
    /\ Forall (fun e => exists k,
                 depth <= k /\ k < length (relations layout)
                 /\ edge_relation e = relation_at layout k) added.

Definition is_creation (w : PendingWrite) : bool :=
  match w with
  | AddChildInContext _ _ _ _ => true
  | AddBIMObject _ _ _ _ => false
  end.

Definition write_parent (w : PendingWrite) : NodeId :=
  match w with
  | AddChildInContext p _ _ _ => p
  | AddBIMObject _ p _ _ => p
  end.

Definition creations (ws : list PendingWrite) : list Node :=
  flat_map (fun w => match w with
                     | AddChildInContext _ c _ _ => [c]
                     | AddBIMObject _ _ _ _ => []
                     end) ws.

Definition created_by (w : PendingWrite) : option NodeId :=
  match w with
  | AddChildInContext _ c _ _ => Some (node_id c)
  | AddBIMObject _ _ _ _ => None
  end.

(** Identities are handed out in increasing order: every node the store
    links is older than the next new node. *)
Definition ids_below (g : Graph) : Prop :=
  Forall (fun e => edge_parent e < next_id g /\ node_id (edge_child e) < next_id g)
         (edges g).

(** Links go from a node to a node of higher rank: no node is its own
    descendant. *)
Definition ranked (rank : NodeId -> nat) (g : Graph) : Prop :=
  Forall (fun e => rank (edge_parent e) < rank (node_id (edge_child e))) (edges g).

Definition acyclic (g : Graph) : Prop := exists rank, ranked rank g.


(** The writes of a run started when the next identity is [n], ending when
    it is [m]: each write hangs under a node that exists when it is
    emitted, and each creation takes the next identity. *)
Inductive in_creation_order : nat -> list PendingWrite -> nat -> Prop :=
| order_nil n : in_creation_order n [] n
| order_create n m p c r ctx ws :
    p < n -> node_id c = n ->
    in_creation_order (S n) ws m ->
    in_creation_order n (AddChildInContext p c r ctx :: ws) m
| order_attach n m ctx p id nm ws :
    p < n ->
    in_creation_order n ws m ->
    in_creation_order n (AddBIMObject ctx p id nm :: ws) m.


Fixpoint entry_count (t : TmpTree) : nat :=
  match t with
  | Group entries =>
      (fix sum (es : list (string * TmpTree)) : nat :=
         match es with
         | [] => 0
         | (_, t') :: es' => S (entry_count t' + sum es')
         end) entries
  | Leaf _ => 0
  end.

(** ** Concrete collaborators and inputs *)

(** Modelled from the spec: [createTmpTree] (js/createTmpTree.js), the
    grouping collaborator: items are grouped by the ordered values of the
    layout keys, maps and arrays keeping insertion order. *)
Fixpoint upsert (k : string) (f : option TmpTree -> TmpTree)
    (es : list (string * TmpTree)) : list (string * TmpTree) :=
  match es with
  | [] => [(k, f None)]
  | (k', t) :: es' =>
      if String.eqb k k' then (k', f (Some t)) :: es' else (k', t) :: upsert k f es'
  end.

(** Modelled from the spec: one item put at the end of the array reached by
    its key values, the maps on the way being created when missing. *)
Fixpoint insertItem (path : list string) (it : Item) (t : option TmpTree) : TmpTree :=
  match path with
  | [] =>
      match t with
      | Some (Leaf l) => Leaf (l ++ [it])
      | _ => Leaf [it]
      end
  | k :: rest =>
      let es := match t with Some (Group es) => es | _ => [] end in
      Group (upsert k (insertItem rest it) es)
  end.

(** Modelled from the spec: [createTmpTree(props)], starting from an empty
    map. *)
Definition createTmpTree_model (props : list Item) : TmpTree :=
  fold_left (fun t it => insertItem (properties it) it (Some t)) props (Group []).

(** Modelled from the spec: [hasProperties] (js/hasProperties.js), the
    filter collaborator; here every referenced id qualifies and sits in the
    single group ["k"]. *)
Definition hasProperties_model (referencial : list Z) (layoutKeys : list string) : list Item :=
  map (fun id => mkItem id "item" ["k"%string]) referencial.

Definition scenario_layout : Layout :=
  mkLayout ["Building"; "Floor"]%string ["b"; "f"]%string ["hasFloor"; "hasRoom"]%string.

Definition scenario_tree : TmpTree :=
  Group [("B1"%string, Group [("F1"%string, Leaf [mkItem 1 "Chair" []])])].

Definition scenario_root : Node := mkNode 0 "ctx" None.

Definition empty_graph : Graph := mkGraph [] [] false 1.

Definition scenario_reuse_graph : Graph :=
  mkGraph [mkEdge 0 (Some "hasFloor"%string) (mkNode 1 "B1" (Some "Building"%string)) 0]
          [] false 2.

Definition one_level_layout : Layout :=
  mkLayout ["Room"%string] ["k"%string] ["hasRoom"%string].


Definition looping_graph : Graph :=
  mkGraph [mkEdge 0 (Some "r"%string) scenario_root 0] [] false 1.


(** 150 items, each with a key value of its own. *)
Definition distinct_props (n : nat) : list Item :=
  map (fun i => mkItem (Z.of_nat i) "item" [String (ascii_of_nat i) EmptyString]) (seq 1 n).

Definition two_names_tree : TmpTree :=
  Group [("A"%string, Leaf []); ("B"%string, Leaf [])].

(** ** Waiting for the file system, polled

    [waitForFileSystem(promises)], after [await Promise.all(promises)] gave
    the nodes: a timer fires at a fixed interval; at each firing the nodes
    are filtered down to those whose [_server_id] is not yet a key of
    [FileSystem._objects], and the promise resolves at the first firing that
    leaves none.  A node stands for its [_server_id]; [objects t id] says
    whether [FileSystem._objects[id]] is defined at firing [t]; firings are
    numbered, the call being made at [now] and the first firing being
    [S now].  [fuel] bounds the number of firings looked at. *)
Definition Registry := nat -> nat -> bool.

Fixpoint poll (objects : Registry) (tick : nat) (nodes : list nat) (fuel : nat)
    : option nat :=
  match fuel with
  | O => None
  | S fuel' =>
      let nodes1 := filter (fun node => negb (objects tick node)) nodes in
      match nodes1 with
      | [] => Some tick                       (* clearInterval(inter); resolve() *)
      | _ :: _ => poll objects (S tick) nodes1 fuel'
      end
  end.

Definition waitForFileSystem (objects : Registry) (now : nat) (nodes : list nat)
    (fuel : nat) : option nat :=
  poll objects (S now) nodes fuel.

(** ** More readings of a run *)

(** The items of a tree, maps and arrays in their order. *)
Fixpoint tree_items (t : TmpTree) : list Item :=
  match t with
  | Group entries =>
      (fix all (es : list (string * TmpTree)) : list Item :=
         match es with
         | [] => []
         | (_, t') :: es' => tree_items t' ++ all es'
         end) entries
  | Leaf items => items
  end.

Definition attachments (ws : list PendingWrite) : list (Z * string) :=
  flat_map (fun w => match w with
                     | AddBIMObject _ _ id nm => [(id, nm)]
                     | AddChildInContext _ _ _ _ => []
                     end) ws.

Definition written_edges (ws : list PendingWrite) : list Edge :=
  flat_map (fun w => match w with
                     | AddChildInContext p c r ctx => [mkEdge p r c ctx]
                     | AddBIMObject _ _ _ _ => []
                     end) ws.

Definition written_bim (ws : list PendingWrite) : list BimRef :=
  flat_map (fun w => match w with
                     | AddBIMObject ctx p id nm => [mkBimRef ctx p id nm]
                     | AddChildInContext _ _ _ _ => []
                     end) ws.

(** The lookups of a log: the resolver calls and the reads of
    [layout.relations]; and the log without them. *)
Definition is_lookup (e : Event) : bool :=
  match e with
  | GetChildren _ _ | LayoutRelation _ => true
  | LayoutType _ | NewNode _ | Yield _ => false
  end.

Definition without_lookups (evs : list Event) : list Event :=
  filter (fun e => negb (is_lookup e)) evs.

(** A write made for [context] under [layout] from [depth] on: it names the
    context, and a created node has the type of the depth whose relation
    links it. *)
Definition write_follows_layout (context : Node) (layout : Layout) (depth : nat)
    (w : PendingWrite) : Prop :=
  match w with
  | AddChildInContext _ c r ctx =>
      ctx = node_id context
      /\ exists k, depth <= k /\ r = relation_at layout k /\ node_type c = type_at layout k
  | AddBIMObject ctx _ _ _ => ctx = node_id context
  end.

(** The store [g'] is [g] with what the writes [ws] announce, and nothing
    else: their links, their attachments, one identity per creation. *)
Definition announces (g : Graph) (ws : list PendingWrite) (g' : Graph) : Prop :=
  edges g' = edges g ++ written_edges ws
  /\ bimObjects g' = bimObjects g ++ written_bim ws
  /\ next_id g' = next_id g + length (creations ws)
  /\ bimContext g' = bimContext g.

(** The number of unconfirmed writes once [steps] are done, [n] being that
    number before. *)
Fixpoint pending_after (n : nat) (steps : list Step) : nat :=
  match steps with
  | [] => n
  | Push _ :: rest => pending_after (S n) rest
  | WaitForFileSystem _ :: rest => pending_after 0 rest
  | _ :: rest => pending_after n rest
  end.

(** A registry in which node [id] is defined from firing [id] on. *)
Definition staged_registry : Registry := fun t id => Nat.leb id t.

(** * Properties *)

(** ** The scenarios of the specification *)

Example scenario_fresh :
  yielded (fst (GenerateGeoContextRec scenario_root scenario_root scenario_tree
                  scenario_layout 0 empty_graph))
  = [AddChildInContext 0 (mkNode 1 "B1" (Some "Building"%string)) (Some "hasFloor"%string) 0;
     AddChildInContext 1 (mkNode 2 "F1" (Some "Floor"%string)) (Some "hasRoom"%string) 0;
     AddBIMObject 0 2 1 "Chair"].
Proof. reflexivity. Qed.

Example scenario_reuse :
  yielded (fst (generateGeoContextRec scenario_root scenario_root scenario_tree
                  scenario_layout 0 scenario_reuse_graph))
  = [AddChildInContext 1 (mkNode 2 "F1" (Some "Floor"%string)) (Some "hasRoom"%string) 0;
     AddBIMObject 0 2 1 "Chair"].
Proof. reflexivity. Qed.

Example scenario_grouping :
  createTmpTree_model [mkItem 1 "Chair" ["B1"; "F1"]%string]
  = Group [("B1"%string, Group [("F1"%string, Leaf [mkItem 1 "Chair" ["B1"; "F1"]%string])])].
Proof. reflexivity. Qed.


(** ** Lists and the store *)

Lemma find_app_some {A} (f : A -> bool) (l l' : list A) (x : A) :
  find f l = Some x -> find f (l ++ l') = Some x.
Proof.
  induction l as [|a l IH]; simpl; [discriminate|].
  destruct (f a); auto.
Qed.

Lemma find_app_none {A} (f : A -> bool) (l l' : list A) :
  find f l = None -> find f (l ++ l') = find f l'.
Proof.
  induction l as [|a l IH]; simpl; auto.
  destruct (f a); [discriminate|auto].
Qed.

Lemma find_all_false {A} (f : A -> bool) (l : list A) :
  Forall (fun x => f x = false) l -> find f l = None.
Proof.
  induction 1 as [|a l Ha _ IH]; simpl; auto.
  now rewrite Ha.
Qed.

Lemma yielded_app (a b : list Event) : yielded (a ++ b) = yielded a ++ yielded b.
Proof. apply flat_map_app. Qed.


Lemma getChildren_app_edges (g g' : Graph) (added : list Edge) (p : NodeId) (r : option string) :
  edges g' = edges g ++ added ->
  getChildren g' p r
  = getChildren g p r ++ map edge_child (filter (edge_matches p r) added).
Proof.
  intros H. unfold getChildren. now rewrite H, filter_app, map_app.
Qed.

Lemma getChildren_same_edges (g g' : Graph) (p : NodeId) (r : option string) :
  edges g' = edges g -> getChildren g' p r = getChildren g p r.
Proof. intros H. unfold getChildren. now rewrite H. Qed.

Lemma relation_eqb_eq (a b : option string) : relation_eqb a b = true <-> a = b.
Proof.
  destruct a as [x|], b as [y|]; simpl; try (split; congruence).
  rewrite String.eqb_eq. split; congruence.
Qed.

(** ** The generators refine the materializer of the specification *)

Lemma attachLeaf_attachAll (ctx p : NodeId) (items : list Item) (g : Graph) :
  (yielded (fst (attachLeaf ctx p items g)), snd (attachLeaf ctx p items g))
  = attachAll ctx p items g.
Proof.
  revert g. induction items as [|it items IH]; intros g; simpl; [reflexivity|].
  specialize (IH (addBIMObject g ctx p (dbId it) (name it))).
  destruct (attachLeaf ctx p items _) as [evs g2].
  destruct (attachAll ctx p items _) as [ws g3].
  simpl in *. now inversion IH.
Qed.

Lemma forEachFound_forEachName (context parent : Node) (layout : Layout) (depth : nat)
    (recE : Node -> TmpTree -> Graph -> list Event * Graph)
    (recW : Node -> TmpTree -> Graph -> list PendingWrite * Graph)
    (existing : list Node) (entries : list (string * TmpTree)) :
  Forall (fun e => forall c g,
            (yielded (fst (recE c (snd e) g)), snd (recE c (snd e) g))
            = recW c (snd e) g) entries ->
  forall g,
    (yielded (fst (forEachFound context parent layout depth recE entries
                     (map (fun e => find (name_is (fst e)) existing) entries) g)),
     snd (forEachFound context parent layout depth recE entries
            (map (fun e => find (name_is (fst e)) existing) entries) g))
    = forEachName context parent layout depth recW existing entries g.
Proof.
  induction 1 as [|[n sub] entries Hhead _ IH]; intros g; simpl; [reflexivity|].
  destruct (find (name_is n) existing) as [c|].
  - specialize (Hhead c g). simpl in Hhead.
    destruct (recE c sub g) as [evs2 g2]. rewrite <- Hhead. simpl.
    specialize (IH g2).
    destruct (forEachFound _ _ _ _ _ entries _ g2) as [evs3 g3].
    rewrite <- IH. simpl. now rewrite yielded_app.
  - unfold createChild, newNode.
    set (c := mkNode (next_id g) n (type_at layout depth)).
    set (g1 := addChildInContext _ _ _ _ _).
    specialize (Hhead c g1). simpl in Hhead.
    destruct (recE c sub g1) as [evs2 g2]. rewrite <- Hhead. simpl.
    specialize (IH g2).
    destruct (forEachFound _ _ _ _ _ entries _ g2) as [evs3 g3].
    rewrite <- IH. simpl. now rewrite yielded_app.
Qed.

Lemma by_names_materialize (t : TmpTree) :
  forall (context parent : Node) (layout : Layout) (depth : nat) (g : Graph),
    (yielded (fst (generateGeoContextRec context parent t layout depth g)),
     snd (generateGeoContextRec context parent t layout depth g))
    = materialize context parent t layout depth g.
Proof.
  induction t as [entries IH|items] using TmpTree_induction; intros context parent layout depth g.
  - simpl. unfold getChildrenByNames. rewrite map_map.
    rewrite <- (forEachFound_forEachName context parent layout depth
                  (fun c v g1 => generateGeoContextRec context c v layout (S depth) g1)).
    + destruct (forEachFound _ _ _ _ _ entries _ g) as [evs g']. reflexivity.
    + eapply Forall_impl; [|exact IH]. intros e He c g0. apply He.
  - simpl. apply attachLeaf_attachAll.
Qed.

Lemma yielded_lookups {A} (l : list A) (evs : list Event) (d : nat) (p : NodeId) (r : option string) :
  yielded (flat_map (fun _ : A => [LayoutRelation d; GetChildren p r]) l ++ evs)
  = yielded evs.
Proof.
  rewrite yielded_app.
  replace (yielded (flat_map _ l)) with (@nil PendingWrite); [reflexivity|].
  induction l; simpl; auto.
Qed.

Lemma by_child_materialize (t : TmpTree) :
  forall (context parent : Node) (layout : Layout) (depth : nat) (g : Graph),
    (yielded (fst (GenerateGeoContextRec context parent t layout depth g)),
     snd (GenerateGeoContextRec context parent t layout depth g))
    = materialize context parent t layout depth g.
Proof.
  induction t as [entries IH|items] using TmpTree_induction; intros context parent layout depth g.
  - simpl. unfold getChild.
    rewrite <- (forEachFound_forEachName context parent layout depth
                  (fun c v g1 => GenerateGeoContextRec context c v layout (S depth) g1)).
    + destruct (forEachFound _ _ _ _ _ entries _ g) as [evs g']. simpl.
      now rewrite yielded_lookups.
    + eapply Forall_impl; [|exact IH]. intros e He c g0. apply He.
  - simpl. apply attachLeaf_attachAll.
Qed.

(** ** Running twice *)

Section Idempotence.
Variables (context : Node) (layout : Layout).

Lemma grows_refl (d : nat) (g g' : Graph) : edges g' = edges g -> grows layout d g g'.
Proof. intros H. exists []. rewrite H, app_nil_r. auto. Qed.

Lemma grows_trans (d : nat) (g g1 g2 : Graph) :
  grows layout d g g1 -> grows layout d g1 g2 -> grows layout d g g2.
Proof.
  intros [a [Ha Fa]] [b [Hb Fb]]. exists (a ++ b). split.
  - now rewrite Hb, Ha, app_assoc.
  - apply Forall_app. auto.
Qed.

Lemma grows_weaken (d : nat) (g g' : Graph) :
  grows layout (S d) g g' -> grows layout d g g'.
Proof.
  intros [a [Ha Fa]]. exists a. split; [assumption|].
  eapply Forall_impl; [|exact Fa]. intros e [k [Hk Hr]]. exists k. split; [lia|assumption].
Qed.

Lemma grows_children (d : nat) (g g' : Graph) (p : NodeId) (r : option string) :
  grows layout d g g' -> exists more, getChildren g' p r = getChildren g p r ++ more.
Proof.
  intros [a [Ha _]]. eexists. apply getChildren_app_edges. exact Ha.
Qed.

(** Deeper levels leave the children under this level's relation alone,
    when the layout names each relation once. *)
Lemma grows_frame (d : nat) (g g' : Graph) (p : NodeId) :
  NoDup (relations layout) -> d < length (relations layout) ->
  grows layout (S d) g g' ->
  getChildren g' p (relation_at layout d) = getChildren g p (relation_at layout d).
Proof.
  intros Hnd Hd [a [Ha Fa]].
  rewrite (getChildren_app_edges g g' a p _ Ha).
  replace (filter _ a) with (@nil Edge); [simpl; apply app_nil_r|].
  symmetry. clear Ha. induction Fa as [|e a [k [Hk [Hlen Hr]]] _ IH]; simpl; [reflexivity|].
  rewrite <- IH. unfold edge_matches.
  destruct (relation_eqb (edge_relation e) (relation_at layout d)) eqn:E.
  - apply relation_eqb_eq in E. rewrite Hr in E. unfold relation_at in E.
    rewrite NoDup_nth_error in Hnd. apply Hnd in E; [lia|assumption].
  - now rewrite andb_false_r.
Qed.

Lemma covered_mono (t : TmpTree) :
  forall (g g' : Graph) (parent : Node) (d : nat) (added : list Edge),
    edges g' = edges g ++ added ->
    covered layout g parent t d -> covered layout g' parent t d.
Proof.
  induction t as [entries IH|items] using TmpTree_induction;
    intros g g' parent d added Hadd Hc; [|constructor].
  inversion Hc as [|? ? ? Hall]; subst. constructor.
  rewrite Forall_forall in *. intros e He.
  destruct (Hall e He) as [c [Hfind Hsub]]. exists c. split.
  - rewrite (getChildren_app_edges g g' added _ _ Hadd). now apply find_app_some.
  - eapply IH; eauto.
Qed.

Lemma attachAll_edges (ctx p : NodeId) (items : list Item) (g : Graph) :
  edges (snd (attachAll ctx p items g)) = edges g
  /\ next_id (snd (attachAll ctx p items g)) = next_id g
  /\ Forall (fun w => is_creation w = false) (fst (attachAll ctx p items g)).
Proof.
  revert g. induction items as [|it items IH]; intros g; simpl; [auto|].
  specialize (IH (addBIMObject g ctx p (dbId it) (name it))).
  destruct (attachAll ctx p items _) as [ws g']. simpl in *.
  destruct IH as [He [Hn Hf]]. auto.
Qed.

(** The loop over the entries of one map, started with a store whose
    children under this level's relation are the looked-up ones followed by
    children created for entries already done. *)
Lemma forEachName_covers (parent : Node) (d : nat)
    (rec : Node -> TmpTree -> Graph -> list PendingWrite * Graph)
    (existing : list Node) (entries : list (string * TmpTree)) :
  NoDup (relations layout) -> d < length (relations layout) ->
  Forall (fun e => forall c g,
            grows layout (S d) g (snd (rec c (snd e) g))
            /\ covered layout (snd (rec c (snd e) g)) c (snd e) (S d)) entries ->
  NoDup (map fst entries) ->
  forall (g : Graph) (done : list Node),
    getChildren g (node_id parent) (relation_at layout d) = existing ++ done ->
    Forall (fun c => ~ In (node_name c) (map fst entries)) done ->
    grows layout d g (snd (forEachName context parent layout d rec existing entries g))
    /\ Forall (fun e => exists c,
                 find (name_is (fst e))
                      (getChildren
                         (snd (forEachName context parent layout d rec existing entries g))
                         (node_id parent) (relation_at layout d)) = Some c
                 /\ covered layout
                      (snd (forEachName context parent layout d rec existing entries g))
                      c (snd e) (S d)) entries.
Proof.
  intros Hnd Hd Hrec. induction Hrec as [|[n sub] entries Hhead _ IH];
    intros Hnames g done Hkids Hdone; simpl.
  - split; [now apply grows_refl|constructor].
  - simpl in Hnames. inversion Hnames as [|? ? Hn Hrest]; subst.
    assert (Hdone' : Forall (fun c => ~ In (node_name c) (map fst entries)) done).
    { eapply Forall_impl; [|exact Hdone]. simpl. intros c Hc Hin. apply Hc. now right. }
    destruct (find (name_is n) existing) as [c|] eqn:Hfind.
    + destruct (Hhead c g) as [Hg1 Hc1]. simpl in Hg1, Hc1.
      destruct (rec c sub g) as [ws1 g1]. simpl in Hg1, Hc1.
      assert (Hk1 : getChildren g1 (node_id parent) (relation_at layout d) = existing ++ done).
      { rewrite (grows_frame d g g1); auto. }
      destruct (IH Hrest g1 done Hk1 Hdone') as [Hg2 Hall].
      destruct (forEachName _ _ _ _ _ _ entries g1) as [ws2 g2]. simpl in *.
      split; [eapply grows_trans; [apply grows_weaken; eassumption|assumption]|].
      constructor; [|assumption]. exists c. simpl.
      destruct Hg2 as [a [Ha _]]. split.
      * rewrite (getChildren_app_edges g1 g2 a _ _ Ha), Hk1.
        apply find_app_some. now apply find_app_some.
      * eapply covered_mono; eauto.
    + set (c := mkNode (next_id g) n (type_at layout d)).
      set (g1 := addChildInContext _ _ _ _ _).
      assert (Hg01 : grows layout d g g1).
      { exists [mkEdge (node_id parent) (relation_at layout d) c (node_id context)].
        split; [reflexivity|]. constructor; [|constructor].
        exists d. simpl. auto. }
      assert (Hk1 : getChildren g1 (node_id parent) (relation_at layout d)
                    = existing ++ (done ++ [c])).
      { destruct Hg01 as [a [Ha _]]. unfold g1 in *. simpl in Ha.
        unfold getChildren. simpl. rewrite filter_app, map_app. simpl.
        unfold edge_matches at 2. simpl. rewrite Nat.eqb_refl.
        replace (relation_eqb (relation_at layout d) (relation_at layout d)) with true
          by (symmetry; now apply relation_eqb_eq).
        simpl. fold (getChildren g (node_id parent) (relation_at layout d)).
        now rewrite Hkids, app_assoc. }
      destruct (Hhead c g1) as [Hg2 Hc2]. simpl in Hg2, Hc2.
      destruct (rec c sub g1) as [ws1 g2]. simpl in Hg2, Hc2.
      assert (Hk2 : getChildren g2 (node_id parent) (relation_at layout d)
                    = existing ++ (done ++ [c])).
      { rewrite (grows_frame d g1 g2); auto. }
      assert (Hdone2 : Forall (fun c => ~ In (node_name c) (map fst entries)) (done ++ [c])).
      { apply Forall_app. split; [assumption|]. constructor; [|constructor]. exact Hn. }
      destruct (IH Hrest g2 (done ++ [c]) Hk2 Hdone2) as [Hg3 Hall].
      destruct (forEachName _ _ _ _ _ _ entries g2) as [ws2 g3]. simpl in *.
      split.
      { eapply grows_trans; [exact Hg01|].
        eapply grows_trans; [apply grows_weaken; eassumption|assumption]. }
      constructor; [|assumption]. exists c. simpl.
      destruct Hg3 as [a [Ha _]]. split.
      * rewrite (getChildren_app_edges g2 g3 a _ _ Ha), Hk2.
        apply find_app_some. rewrite (find_app_none _ _ _ Hfind).
        rewrite find_app_none.
        -- simpl. unfold name_is. simpl. now rewrite String.eqb_refl.
        -- apply find_all_false. eapply Forall_impl; [|exact Hdone].
           intros x Hx. unfold name_is. apply String.eqb_neq. intros E. apply Hx.
           simpl. now left.
      * eapply covered_mono; eauto.
Qed.

Lemma materialize_covers (t : TmpTree) :
  NoDup (relations layout) ->
  forall (parent : Node) (d : nat) (g : Graph),
    map_keys_unique t -> within (layout_length layout) t d ->
    grows layout d g (snd (materialize context parent t layout d g))
    /\ covered layout (snd (materialize context parent t layout d g)) parent t d.
Proof.
  intros Hnd. induction t as [entries IH|items] using TmpTree_induction;
    intros parent d g Hkeys Hin.
  - inversion Hkeys as [|? Hnames Hsubkeys]; subst.
    inversion Hin as [|? ? Hd Hsubin]; subst.
    assert (Hd' : d < length (relations layout)).
    { unfold layout_length in Hd. lia. }
    simpl.
    destruct (forEachName_covers parent d
                (fun c subtree g1 => materialize context c subtree layout (S d) g1)
                (getChildren g (node_id parent) (relation_at layout d)) entries
                Hnd Hd') with (g := g) (done := @nil Node) as [Hg Hall]; auto.
    + rewrite Forall_forall in *. intros e He c g0. apply IH; auto.
    + now rewrite app_nil_r.
    + split; [assumption|]. now constructor.
  - simpl. split; [|constructor].
    apply grows_refl. apply attachAll_edges.
Qed.

(** Once the tree is there, a run links nothing and creates nothing. *)
Lemma forEachName_covered (parent : Node) (d : nat)
    (rec : Node -> TmpTree -> Graph -> list PendingWrite * Graph)
    (g0 : Graph) (entries : list (string * TmpTree)) :
  Forall (fun e => forall c g,
            covered layout g c (snd e) (S d) ->
            edges (snd (rec c (snd e) g)) = edges g
            /\ next_id (snd (rec c (snd e) g)) = next_id g
            /\ Forall (fun w => is_creation w = false) (fst (rec c (snd e) g))) entries ->
  Forall (fun e => exists c,
            find (name_is (fst e))
                 (getChildren g0 (node_id parent) (relation_at layout d)) = Some c
            /\ covered layout g0 c (snd e) (S d)) entries ->
  forall g, edges g = edges g0 ->
    let r := forEachName context parent layout d rec
               (getChildren g0 (node_id parent) (relation_at layout d)) entries g in
    edges (snd r) = edges g /\ next_id (snd r) = next_id g
    /\ Forall (fun w => is_creation w = false) (fst r).
Proof.
  intros Hrec. induction Hrec as [|[n sub] entries Hhead _ IH];
    intros Hcov g Hg; simpl; [auto|].
  inversion Hcov as [|? ? [c [Hfind Hc]] Hrest]; subst. simpl in Hfind, Hc.
  rewrite Hfind.
  assert (Hc' : covered layout g c sub (S d)).
  { eapply covered_mono with (added := []); [|exact Hc]. now rewrite app_nil_r. }
  destruct (Hhead c g Hc') as [He1 [Hn1 Hw1]]. simpl in He1, Hn1, Hw1.
  destruct (rec c sub g) as [ws1 g1]. simpl in *.
  assert (Hg1 : edges g1 = edges g0) by congruence.
  specialize (IH Hrest g1 Hg1). simpl in IH.
  destruct (forEachName _ _ _ _ _ _ entries g1) as [ws2 g2]. simpl in *.
  destruct IH as [He2 [Hn2 Hw2]].
  repeat split; try congruence. apply Forall_app. auto.
Qed.

Lemma materialize_covered (t : TmpTree) :
  forall (parent : Node) (d : nat) (g : Graph),
    covered layout g parent t d ->
    edges (snd (materialize context parent t layout d g)) = edges g
    /\ next_id (snd (materialize context parent t layout d g)) = next_id g
    /\ Forall (fun w => is_creation w = false)
              (fst (materialize context parent t layout d g)).
Proof.
  induction t as [entries IH|items] using TmpTree_induction; intros parent d g Hc.
  - inversion Hc as [|? ? ? Hall]; subst. simpl.
    apply (forEachName_covered parent d
             (fun c subtree g1 => materialize context c subtree layout (S d) g1)
             g entries); auto.
    eapply Forall_impl; [|exact IH]. intros e He c g0. apply He.
  - simpl. apply attachAll_edges.
Qed.

Lemma materialize_twice (t : TmpTree) (parent : Node) (d : nat) (g : Graph) :
  NoDup (relations layout) ->
  map_keys_unique t -> within (layout_length layout) t d ->
  let g1 := snd (materialize context parent t layout d g) in
  let r2 := materialize context parent t layout d g1 in
  edges (snd r2) = edges g1 /\ next_id (snd r2) = next_id g1
  /\ Forall (fun w => is_creation w = false) (fst r2).
Proof.
  intros Hnd Hkeys Hin g1 r2. apply materialize_covered.
  now apply materialize_covers.
Qed.
End Idempotence.

(** ** Emission order *)

Lemma order_app (n m k : nat) (a b : list PendingWrite) :
  in_creation_order n a m -> in_creation_order m b k -> in_creation_order n (a ++ b) k.
Proof.
  induction 1; intros Hb; simpl; [assumption| |]; constructor; auto.
Qed.

Lemma order_app_inv (a b : list PendingWrite) :
  forall n m, in_creation_order n (a ++ b) m ->
              exists k, in_creation_order n a k /\ in_creation_order k b m.
Proof.
  induction a as [|w a IH]; intros n m H; simpl in H.
  - exists n. split; [constructor|assumption].
  - inversion H as [|? ? ? ? ? ? ? Hp Hc Hrest|? ? ? ? ? ? ? Hp Hrest]; subst.
    + destruct (IH _ _ Hrest) as [k [Ha Hb]]. exists k. split; [constructor|]; auto.
    + destruct (IH _ _ Hrest) as [k [Ha Hb]]. exists k. split; [constructor|]; auto.
Qed.

Lemma order_bounds (n m : nat) (ws : list PendingWrite) :
  in_creation_order n ws m ->
  n <= m
  /\ forall w, In w ws ->
       write_parent w < m
       /\ forall id, created_by w = Some id -> n <= id /\ id < m.
Proof.
  induction 1 as [n|n m p c r ctx ws Hp Hc _ [Hle IH]|n m ctx p id nm ws Hp _ [Hle IH]].
  - split; [lia|]. intros w [].
  - split; [lia|]. intros w [<-|Hin]; simpl.
    + split; [lia|]. intros id [= <-]. lia.
    + destruct (IH w Hin) as [H1 H2]. split; [assumption|].
      intros id Hid. specialize (H2 id Hid). lia.
  - split; [lia|]. intros w [<-|Hin]; simpl.
    + split; [lia|]. discriminate.
    + apply IH, Hin.
Qed.

Lemma ids_below_attachAll (ctx p : NodeId) (items : list Item) (g : Graph) :
  ids_below g -> p < next_id g ->
  in_creation_order (next_id g) (fst (attachAll ctx p items g))
                    (next_id (snd (attachAll ctx p items g)))
  /\ ids_below (snd (attachAll ctx p items g)).
Proof.
  revert g. induction items as [|it items IH]; intros g Hg Hp; simpl.
  - split; [constructor|assumption].
  - specialize (IH (addBIMObject g ctx p (dbId it) (name it)) Hg Hp).
    destruct (attachAll ctx p items _) as [ws g']. simpl in *.
    destruct IH as [Ho Hb]. split; [constructor|]; auto.
Qed.

Section Order.
Variables (context : Node) (layout : Layout).

Lemma forEachName_order (parent : Node) (d : nat)
    (rec : Node -> TmpTree -> Graph -> list PendingWrite * Graph)
    (existing : list Node) (entries : list (string * TmpTree)) :
  Forall (fun e => forall c g,
            ids_below g -> node_id c < next_id g ->
            in_creation_order (next_id g) (fst (rec c (snd e) g))
                              (next_id (snd (rec c (snd e) g)))
            /\ ids_below (snd (rec c (snd e) g))) entries ->
  forall g,
    ids_below g -> node_id parent < next_id g ->
    Forall (fun c => node_id c < next_id g) existing ->
    let r := forEachName context parent layout d rec existing entries g in
    in_creation_order (next_id g) (fst r) (next_id (snd r)) /\ ids_below (snd r).
Proof.
  intros Hrec. induction Hrec as [|[n sub] entries Hhead _ IH];
    intros g Hg Hp Hex; simpl.
  - split; [constructor|assumption].
  - destruct (find (name_is n) existing) as [c|] eqn:Hfind.
    + assert (Hc : node_id c < next_id g).
      { apply find_some in Hfind. rewrite Forall_forall in Hex. now apply Hex. }
      destruct (Hhead c g Hg Hc) as [Ho1 Hb1]. simpl in Ho1, Hb1.
      destruct (rec c sub g) as [ws1 g1]. simpl in *.
      pose proof (proj1 (order_bounds _ _ _ Ho1)) as Hle.
      assert (Hex1 : Forall (fun c => node_id c < next_id g1) existing).
      { eapply Forall_impl; [|exact Hex]. simpl. intros; lia. }
      specialize (IH g1 Hb1 ltac:(lia) Hex1). simpl in IH.
      destruct (forEachName _ _ _ _ _ _ entries g1) as [ws2 g2]. simpl in *.
      destruct IH as [Ho2 Hb2]. split; [eapply order_app; eauto|assumption].
    + set (c := mkNode (next_id g) n (type_at layout d)).
      set (g1 := addChildInContext _ _ _ _ _).
      assert (Hg1 : ids_below g1).
      { unfold ids_below, g1. simpl. apply Forall_app. split.
        - eapply Forall_impl; [|exact Hg]. simpl. intros e [H1 H2]. lia.
        - constructor; [simpl; lia|constructor]. }
      assert (Hc : node_id c < next_id g1) by (simpl; lia).
      destruct (Hhead c g1 Hg1 Hc) as [Ho1 Hb1]. simpl in Ho1, Hb1.
      destruct (rec c sub g1) as [ws1 g2]. simpl in *.
      pose proof (proj1 (order_bounds _ _ _ Ho1)) as Hle.
      assert (Hex1 : Forall (fun c => node_id c < next_id g2) existing).
      { eapply Forall_impl; [|exact Hex]. simpl. intros; lia. }
      specialize (IH g2 Hb1 ltac:(lia) Hex1). simpl in IH.
      destruct (forEachName _ _ _ _ _ _ entries g2) as [ws2 g3]. simpl in *.
      destruct IH as [Ho2 Hb2]. split; [|assumption].
      constructor; [assumption|reflexivity|]. eapply order_app; eauto.
Qed.

Lemma materialize_order (t : TmpTree) :
  forall (parent : Node) (d : nat) (g : Graph),
    ids_below g -> node_id parent < next_id g ->
    in_creation_order (next_id g) (fst (materialize context parent t layout d g))
                      (next_id (snd (materialize context parent t layout d g)))
    /\ ids_below (snd (materialize context parent t layout d g)).
Proof.
  induction t as [entries IH|items] using TmpTree_induction; intros parent d g Hg Hp.
  - simpl. apply forEachName_order; auto.
    + eapply Forall_impl; [|exact IH]. intros e He c g0. apply He.
    + unfold getChildren. rewrite Forall_map, Forall_forall.
      intros e He. apply filter_In in He. destruct He as [He _].
      unfold ids_below in Hg. rewrite Forall_forall in Hg. now apply Hg.
  - simpl. now apply ids_below_attachAll.
Qed.
End Order.

(** In a run's writes, everything before the creation of [c] hangs under
    older nodes, and nothing else creates [c]. *)
Lemma order_split (n m : nat) (front back : list PendingWrite)
    (p : NodeId) (c : Node) (r : option string) (ctx : NodeId) :
  in_creation_order n (front ++ AddChildInContext p c r ctx :: back) m ->
  (forall w, In w front ->
     write_parent w <> node_id c /\ created_by w <> Some (node_id c))
  /\ (forall w, In w back -> created_by w <> Some (node_id c)).
Proof.
  intros H. apply order_app_inv in H. destruct H as [k [Hf Hb]].
  inversion Hb as [|? ? ? ? ? ? ? Hp Hc Hrest|]; subst.
  pose proof (order_bounds _ _ _ Hf) as [_ Hfront].
  pose proof (order_bounds _ _ _ Hrest) as [_ Hback].
  split.
  - intros w Hw. destruct (Hfront w Hw) as [H1 H2]. split; [lia|].
    intros E. specialize (H2 _ E). lia.
  - intros w Hw E. destruct (Hback w Hw) as [_ H2]. specialize (H2 _ E). lia.
Qed.

(** ** What the loop of a generator logs *)

Lemma created_nodes_app (a b : list Event) :
  created_nodes (a ++ b) = created_nodes a ++ created_nodes b.
Proof. apply flat_map_app. Qed.

Lemma creations_app (a b : list PendingWrite) :
  creations (a ++ b) = creations a ++ creations b.
Proof. apply flat_map_app. Qed.

Lemma attachLeaf_log (ctx p : NodeId) (items : list Item) (g : Graph) :
  created_nodes (fst (attachLeaf ctx p items g)) = []
  /\ creations (yielded (fst (attachLeaf ctx p items g))) = []
  /\ resolver_calls (fst (attachLeaf ctx p items g)) = []
  /\ layout_reads (fst (attachLeaf ctx p items g)) = [].
Proof.
  revert g. induction items as [|it items IH]; intros g; simpl; [auto|].
  specialize (IH (addBIMObject g ctx p (dbId it) (name it))).
  destruct (attachLeaf ctx p items _) as [evs g']. simpl in *. exact IH.
Qed.

Section LoopLog.
Variables (context parent : Node) (layout : Layout) (depth : nat).
Variable recurse : Node -> TmpTree -> Graph -> list Event * Graph.

Lemma forEachFound_created (entries : list (string * TmpTree)) :
  Forall (fun e => forall c g,
            created_nodes (fst (recurse c (snd e) g))
            = creations (yielded (fst (recurse c (snd e) g)))) entries ->
  forall found g,
    created_nodes (fst (forEachFound context parent layout depth recurse entries found g))
    = creations (yielded (fst (forEachFound context parent layout depth recurse
                                 entries found g))).
Proof.
  induction 1 as [|[n sub] entries Hhead _ IH]; intros found g.
  - destruct found; reflexivity.
  - destruct found as [|child found]; [reflexivity|]. simpl.
    destruct child as [c|].
    + specialize (Hhead c g). simpl in Hhead.
      destruct (recurse c sub g) as [evs2 g2]. specialize (IH found g2).
      destruct (forEachFound _ _ _ _ _ entries found g2) as [evs3 g3]. simpl in *.
      now rewrite created_nodes_app, yielded_app, creations_app, Hhead, IH.
    + unfold createChild, newNode.
      set (c := mkNode (next_id g) n (type_at layout depth)).
      set (g1 := addChildInContext _ _ _ _ _).
      specialize (Hhead c g1). simpl in Hhead.
      destruct (recurse c sub g1) as [evs2 g2]. specialize (IH found g2).
      destruct (forEachFound _ _ _ _ _ entries found g2) as [evs3 g3]. simpl in *.
      now rewrite created_nodes_app, yielded_app, creations_app, Hhead, IH.
Qed.


Lemma forEachFound_reads (entries : list (string * TmpTree)) :
  depth < length (types layout) -> depth < length (relations layout) ->
  Forall (fun e => forall c g,
            Forall (read_in_bounds layout) (fst (recurse c (snd e) g))) entries ->
  forall found g,
    Forall (read_in_bounds layout)
           (fst (forEachFound context parent layout depth recurse entries found g)).
Proof.
  intros Ht Hr.
  assert (HT : type_at layout depth <> None) by (now apply nth_error_Some).
  assert (HR : relation_at layout depth <> None) by (now apply nth_error_Some).
  induction 1 as [|[n sub] entries Hhead _ IH]; intros found g.
  - destruct found; constructor.
  - destruct found as [|child found]; [constructor|]. simpl.
    destruct child as [c|].
    + specialize (Hhead c g). simpl in Hhead.
      destruct (recurse c sub g) as [evs2 g2]. specialize (IH found g2).
      destruct (forEachFound _ _ _ _ _ entries found g2) as [evs3 g3]. simpl in *.
      apply Forall_app. auto.
    + unfold createChild, newNode.
      set (c := mkNode (next_id g) n (type_at layout depth)).
      set (g1 := addChildInContext _ _ _ _ _).
      specialize (Hhead c g1). simpl in Hhead.
      destruct (recurse c sub g1) as [evs2 g2]. specialize (IH found g2).
      destruct (forEachFound _ _ _ _ _ entries found g2) as [evs3 g3]. simpl in *.
      repeat (constructor; simpl; auto). apply Forall_app. auto.
Qed.
End LoopLog.


Lemma entry_count_Group (entries : list (string * TmpTree)) :
  entry_count (Group entries)
  = length entries + list_sum (map (fun e => entry_count (snd e)) entries).
Proof.
  simpl. induction entries as [|[n t] entries IH]; simpl; auto.
  rewrite IH. lia.
Qed.




(** ** Running twice on a store without cycles *)

Section Acyclic.
Variables (context : Node) (layout : Layout).






End Acyclic.

Lemma looping_graph_has_a_cycle : ids_below looping_graph /\ ~ acyclic looping_graph.
Proof.
  split.
  - unfold ids_below, looping_graph. simpl. constructor; [simpl; lia|constructor].
  - intros [rank Hr]. unfold ranked, looping_graph in Hr. simpl in Hr.
    inversion Hr as [|? ? H _]; subst. simpl in H. lia.
Qed.

(** * The claims *)

(** ** Running the materializer twice *)




(** ** The batch of unconfirmed writes *)

(** The loop of [generateGeoContext] empties the batch at each wait: the
    batch and the number of unconfirmed writes stay within the maximum. *)
Lemma generateGeoContext_loop_bound (incrProg : JsNumber) (stream : list PendingWrite) :
  forall (promises : list PendingWrite) (progression : JsNumber),
    length promises < MAX_NON_SYNCHRONIZED_NODES ->
    let '(steps, final, _) :=
      generateGeoContext_loop incrProg stream promises progression in
    Forall (fun n => n <= MAX_NON_SYNCHRONIZED_NODES) (unconfirmed (length promises) steps)
    /\ Forall (fun b => length b = MAX_NON_SYNCHRONIZED_NODES) (waits steps)
    /\ length final < MAX_NON_SYNCHRONIZED_NODES.
Proof.
  induction stream as [|w stream IH]; intros promises progression Hlen; simpl.
  - repeat split; [constructor|constructor|assumption].
  - destruct (Nat.eqb_spec (length (promises ++ [w])) MAX_NON_SYNCHRONIZED_NODES) as [E|E];
      rewrite length_app in E; simpl in E.
    + specialize (IH [] (js_add progression incrProg)).
      destruct (generateGeoContext_loop incrProg stream [] _) as [[steps final] p2].
      simpl. destruct IH as [H1 [H2 H3]]; [unfold MAX_NON_SYNCHRONIZED_NODES; simpl; lia|].
      repeat split; auto.
      * constructor; [lia|]. constructor; [lia|]. constructor; [lia|exact H1].
      * constructor; [|exact H2]. rewrite length_app. simpl. exact E.
    + specialize (IH (promises ++ [w]) progression).
      destruct (generateGeoContext_loop incrProg stream (promises ++ [w]) _)
        as [[steps final] p2].
      rewrite length_app in IH. simpl in IH. simpl.
      destruct IH as [H1 [H2 H3]]; [lia|].
      replace (length promises + 1) with (S (length promises)) in H1 by lia.
      split; [constructor; [lia|exact H1]|split; assumption].
Qed.

(** The loop of [GenerateGeoContext] keeps every write in the batch: it
    waits at most once, and what is left for the last wait is the whole
    stream. *)
Lemma GenerateGeoContext_loop_keeps_batch (stream : list PendingWrite) :
  forall promises : list PendingWrite,
    let '(steps, final) := GenerateGeoContext_loop stream promises in
    final = promises ++ stream
    /\ (MAX_NON_SYNCHRONIZED_NODES <= length promises -> waits steps = [])
    /\ length (waits steps) <= 1.
Proof.
  induction stream as [|w stream IH]; intros promises; simpl.
  - rewrite app_nil_r. auto.
  - specialize (IH (promises ++ [w])).
    destruct (GenerateGeoContext_loop stream (promises ++ [w])) as [steps final].
    destruct IH as [Hf [Hnone Hone]]. rewrite length_app in Hnone. simpl in Hnone.
    destruct (Nat.eqb_spec (length (promises ++ [w])) MAX_NON_SYNCHRONIZED_NODES) as [E|E];
      rewrite length_app in E; simpl in E; simpl.
    + split; [now rewrite Hf, <- app_assoc|]. split; [lia|].
      rewrite Hnone; [simpl; lia|lia].
    + split; [now rewrite Hf, <- app_assoc|]. split; [|assumption].
      intros H. apply Hnone. lia.
Qed.

(** Progress in the loop of [generateGeoContext]: one advance per full
    batch, the full batches being counted over the writes. *)
Lemma generateGeoContext_loop_progress (incrProg : JsNumber) (stream : list PendingWrite) :
  forall (promises : list PendingWrite) (progression : JsNumber),
    length promises < MAX_NON_SYNCHRONIZED_NODES ->
    let '(steps, final, _) :=
      generateGeoContext_loop incrProg stream promises progression in
    exists flushes,
      progress_history steps = advance incrProg progression flushes
      /\ length promises + length stream
         = flushes * MAX_NON_SYNCHRONIZED_NODES + length final
      /\ length final < MAX_NON_SYNCHRONIZED_NODES.
Proof.
  induction stream as [|w stream IH]; intros promises progression Hlen; simpl.
  - exists 0. simpl. split; [reflexivity|]. split; [lia|assumption].
  - destruct (Nat.eqb_spec (length (promises ++ [w])) MAX_NON_SYNCHRONIZED_NODES) as [E|E];
      rewrite length_app in E; simpl in E.
    + specialize (IH [] (js_add progression incrProg)).
      destruct (generateGeoContext_loop incrProg stream [] _) as [[steps final] p2].
      destruct IH as [k [Hh [Hn Hf]]]; [unfold MAX_NON_SYNCHRONIZED_NODES; simpl; lia|].
      exists (S k). split; [simpl; now rewrite Hh|].
      cbn [length] in Hn. split; [lia|assumption].
    + specialize (IH (promises ++ [w]) progression).
      destruct (generateGeoContext_loop incrProg stream (promises ++ [w]) _)
        as [[steps final] p2].
      rewrite length_app in IH. simpl in IH.
      destruct IH as [k [Hh [Hn Hf]]]; [lia|].
      exists k. split; [simpl; assumption|]. cbn [length]. split; [lia|assumption].
Qed.

Lemma advance_length (incrProg : JsNumber) (flushes : nat) :
  forall progression, length (advance incrProg progression flushes) = flushes.
Proof.
  induction flushes as [|k IH]; intros progression; simpl; [reflexivity|].
  now rewrite IH.
Qed.

(** X14: how often progress is set in any run of [generateGeoContext]: to
    10, to 20, then once per full batch of 300 yielded writes, then to
    100. *)
Lemma generateGeoContext_progress_stages
    (createTmpTree : list Item -> TmpTree)
    (context : Node) (layout : Layout) (props : list Item) (g : Graph) :
  let r := generateGeoContext createTmpTree context layout props g in
  exists flushes middle,
    progress_history (run_steps r)
    = Finite 10 :: Finite 20 :: middle ++ [Finite 100]
    /\ length middle = flushes
    /\ flushes * MAX_NON_SYNCHRONIZED_NODES <= length (yielded (run_events r))
    /\ length (yielded (run_events r)) < S flushes * MAX_NON_SYNCHRONIZED_NODES.
Proof.
  unfold generateGeoContext.
  destruct (generateGeoContextRec context context (createTmpTree props) layout 0 g)
    as [evs g1].
  set (incr := js_div_pos _ (length props)).
  set (p1 := js_add _ _).
  pose proof (generateGeoContext_loop_progress incr (yielded evs) [] p1) as H.
  destruct (generateGeoContext_loop incr (yielded evs) [] p1) as [[steps final] p2].
  destruct H as [k [Hh [Hn Hf]]]; [unfold MAX_NON_SYNCHRONIZED_NODES; simpl; lia|].
  exists k, (advance incr p1 k). cbn [length] in Hn. cbn [run_steps run_events].
  split; [|split; [apply advance_length|split; lia]].
  unfold progress_history in *. cbn [flat_map app]. rewrite !flat_map_app, Hh.
  replace (flat_map _ (finalWait final)) with (@nil JsNumber);
    [reflexivity|destruct final; reflexivity].
Qed.

(** C2, at the failing input: 600 referenced items of one group give 601
    writes; the loop of [GenerateGeoContext] waits once at 300 without
    emptying the batch, so the test for 300 never holds again: 301 writes
    are unconfirmed together and the last wait is given all 601. *)
Theorem GenerateGeoContext_batch_overflow :
  let r := GenerateGeoContext hasProperties_model createTmpTree_model scenario_root
             one_level_layout (map Z.of_nat (seq 1 600)) empty_graph in
  length (yielded (run_events r)) = 601
  /\ list_max (unconfirmed 0 (run_steps r)) = 301
  /\ map (@length PendingWrite) (waits (run_steps r)) = [300; 601].
Proof. vm_compute. auto. Qed.

(** The sibling entry point on the same 601 writes: never more than 300
    unconfirmed, waits of 300, 300 and 1. *)
Example generateGeoContext_batch_601 :
  let r := generateGeoContext createTmpTree_model scenario_root one_level_layout
             (hasProperties_model (map Z.of_nat (seq 1 600)) ["k"%string]) empty_graph in
  length (yielded (run_events r)) = 601
  /\ list_max (unconfirmed 0 (run_steps r)) = 300
  /\ map (@length PendingWrite) (waits (run_steps r)) = [300; 300; 1].
Proof. vm_compute. auto. Qed.

(** ** Resolver calls *)



(** ** Pre-order emission *)

Lemma by_names_created (t : TmpTree) :
  forall (context parent : Node) (layout : Layout) (depth : nat) (g : Graph),
    created_nodes (fst (generateGeoContextRec context parent t layout depth g))
    = creations (yielded (fst (generateGeoContextRec context parent t layout depth g))).
Proof.
  induction t as [entries IH|items] using TmpTree_induction;
    intros context parent layout depth g.
  - simpl.
    pose proof (forEachFound_created context parent layout depth
                  (fun c v g1 => generateGeoContextRec context c v layout (S depth) g1)
                  entries) as H.
    specialize (H ltac:(eapply Forall_impl; [|exact IH]; intros e He c g0; apply He)
                  (getChildrenByNames g parent (map fst entries) (relation_at layout depth)) g).
    destruct (forEachFound _ _ _ _ _ entries _ g) as [evs g']. exact H.
  - simpl. destruct (attachLeaf_log (node_id context) (node_id parent) items g)
      as [H1 [H2 _]]. congruence.
Qed.

Lemma by_child_created (t : TmpTree) :
  forall (context parent : Node) (layout : Layout) (depth : nat) (g : Graph),
    created_nodes (fst (GenerateGeoContextRec context parent t layout depth g))
    = creations (yielded (fst (GenerateGeoContextRec context parent t layout depth g))).
Proof.
  induction t as [entries IH|items] using TmpTree_induction;
    intros context parent layout depth g.
  - simpl.
    pose proof (forEachFound_created context parent layout depth
                  (fun c v g1 => GenerateGeoContextRec context c v layout (S depth) g1)
                  entries) as H.
    specialize (H ltac:(eapply Forall_impl; [|exact IH]; intros e He c g0; apply He)
                  (map (fun e => getChild g parent (fst e) (relation_at layout depth)) entries)
                  g).
    destruct (forEachFound _ _ _ _ _ entries _ g) as [evs g']. simpl in *.
    rewrite yielded_lookups, created_nodes_app, <- H.
    replace (created_nodes (flat_map _ entries)) with (@nil Node); [reflexivity|].
    clear. induction entries; simpl; auto.
  - simpl. destruct (attachLeaf_log (node_id context) (node_id parent) items g)
      as [H1 [H2 _]]. congruence.
Qed.

(** C4: the writes of either generator are those of the materializer of the
    specification, which puts a creation write in front of the writes of its
    subtree; each created node has exactly one creation write, in creation
    order; and in a store whose identities are below the next one, no write
    emitted before the creation of a node hangs under that node, and no
    other write creates it. *)
Theorem creation_precedes_subtree
    (context parent : Node) (t : TmpTree) (layout : Layout) (depth : nat) (g : Graph)
    (Hstore : ids_below g) (Hparent : node_id parent < next_id g)
    (evs : list Event)
    (Hrun : evs = fst (generateGeoContextRec context parent t layout depth g)
            \/ evs = fst (GenerateGeoContextRec context parent t layout depth g)) :
  yielded evs = fst (materialize context parent t layout depth g)
  /\ created_nodes evs = creations (yielded evs)
  /\ NoDup (map node_id (creations (yielded evs)))
  /\ forall front p c r ctx back,
       yielded evs = front ++ AddChildInContext p c r ctx :: back ->
       (forall w, In w front ->
          write_parent w <> node_id c /\ created_by w <> Some (node_id c))
       /\ (forall w, In w back -> created_by w <> Some (node_id c)).
Proof.
  assert (Hy : yielded evs = fst (materialize context parent t layout depth g)).
  { destruct Hrun as [-> | ->].
    - now rewrite <- by_names_materialize.
    - now rewrite <- by_child_materialize. }
  assert (Hc : created_nodes evs = creations (yielded evs)).
  { destruct Hrun as [-> | ->].
    - apply by_names_created.
    - apply by_child_created. }
  destruct (materialize_order context layout t parent depth g Hstore Hparent) as [Ho _].
  rewrite <- Hy in Ho.
  split; [exact Hy|]. split; [exact Hc|]. split.
  - clear Hy Hc. revert Ho. generalize (next_id g).
    generalize (next_id (snd (materialize context parent t layout depth g))).
    induction (yielded evs) as [|w ws IH]; intros m n Ho; [constructor|].
    inversion Ho as [|? ? ? ? ? ? ? Hp Hid Hrest|? ? ? ? ? ? ? Hp Hrest]; subst; simpl.
    + constructor; [|eapply IH; eauto].
      intros Hin. apply in_map_iff in Hin. destruct Hin as [c' [Hid' Hin]].
      unfold creations in Hin. apply in_flat_map in Hin.
      destruct Hin as [w' [Hw Hcw]].
      destruct (order_bounds _ _ _ Hrest) as [_ Hb].
      destruct (Hb w' Hw) as [_ Hb'].
      destruct w'; simpl in Hcw; [|contradiction].
      destruct Hcw as [<-|[]]. specialize (Hb' _ eq_refl). lia.
    + eapply IH; eauto.
  - intros front p c r ctx back Hsplit. rewrite Hsplit in Ho.
    exact (order_split _ _ _ _ _ _ _ _ Ho).
Qed.

Lemma creation_precedes_subtree_witness :
  ids_below empty_graph
  /\ node_id scenario_root < next_id empty_graph
  /\ (let evs := fst (GenerateGeoContextRec scenario_root scenario_root scenario_tree
                        scenario_layout 0 empty_graph) in
      yielded evs
      = fst (materialize scenario_root scenario_root scenario_tree scenario_layout 0
               empty_graph)
      /\ created_nodes evs = creations (yielded evs)
      /\ NoDup (map node_id (creations (yielded evs)))
      /\ forall front p c r ctx back,
           yielded evs = front ++ AddChildInContext p c r ctx :: back ->
           (forall w, In w front ->
              write_parent w <> node_id c /\ created_by w <> Some (node_id c))
           /\ (forall w, In w back -> created_by w <> Some (node_id c))).
Proof.
  split; [constructor|]. split; [simpl; lia|].
  apply (creation_precedes_subtree scenario_root scenario_root scenario_tree
           scenario_layout 0 empty_graph).
  - constructor.
  - simpl. lia.
  - right. reflexivity.
Defined.

(** ** Matching by name *)

Lemma forEachName_app (context parent : Node) (layout : Layout) (depth : nat)
    (rec : Node -> TmpTree -> Graph -> list PendingWrite * Graph)
    (existing : list Node) (a b : list (string * TmpTree)) :
  forall g,
    forEachName context parent layout depth rec existing (a ++ b) g
    = let '(ws1, g1) := forEachName context parent layout depth rec existing a g in
      let '(ws2, g2) := forEachName context parent layout depth rec existing b g1 in
      (ws1 ++ ws2, g2).
Proof.
  induction a as [|[n sub] a IH]; intros g; simpl.
  - now destruct (forEachName _ _ _ _ _ _ b g).
  - destruct (find (name_is n) existing) as [c|].
    + destruct (rec c sub g) as [ws1 g1]. rewrite IH.
      destruct (forEachName _ _ _ _ _ _ a g1) as [ws2 g2].
      destruct (forEachName _ _ _ _ _ _ b g2) as [ws3 g3].
      now rewrite app_assoc.
    + destruct (rec _ sub _) as [ws1 g1]. rewrite IH.
      destruct (forEachName _ _ _ _ _ _ a g1) as [ws2 g2].
      destruct (forEachName _ _ _ _ _ _ b g2) as [ws3 g3].
      simpl. now rewrite app_assoc.
Qed.

Lemma find_none_permutation (n : string) (l l' : list Node) :
  Permutation l l' -> find (name_is n) l = None -> find (name_is n) l' = None.
Proof.
  intros Hp Hn. apply find_all_false. rewrite Forall_forall. intros x Hx.
  eapply find_none; [exact Hn|]. eapply Permutation_in; [|exact Hx].
  now apply Permutation_sym.
Qed.

(** C5: both generators pair each entry with the first existing child of
    the same name, whatever the position of the entry and of the child: the
    lookups are [find]s by name; a found child has the requested name and is
    among the resolved children; a name is not found exactly when no
    resolved child bears it, in whatever order the resolver lists them; and
    an entry whose name is found contributes the writes of its subtree under
    that child and no creation write. *)
Theorem name_matching
    (context parent : Node) (entries : list (string * TmpTree)) (layout : Layout)
    (depth : nat) (g : Graph) (reordered : list Node) (n : string)
    (Hperm : Permutation (getChildren g (node_id parent) (relation_at layout depth))
                         reordered) :
  let existing := getChildren g (node_id parent) (relation_at layout depth) in
  let rec := fun c subtree g1 => materialize context c subtree layout (S depth) g1 in
  (yielded (fst (generateGeoContextRec context parent (Group entries) layout depth g)),
   snd (generateGeoContextRec context parent (Group entries) layout depth g))
  = materialize context parent (Group entries) layout depth g
  /\ (yielded (fst (GenerateGeoContextRec context parent (Group entries) layout depth g)),
      snd (GenerateGeoContextRec context parent (Group entries) layout depth g))
     = materialize context parent (Group entries) layout depth g
  /\ getChildrenByNames g parent (map fst entries) (relation_at layout depth)
     = map (fun e => find (name_is (fst e)) existing) entries
  /\ map (fun e => getChild g parent (fst e) (relation_at layout depth)) entries
     = map (fun e => find (name_is (fst e)) existing) entries
  /\ (forall c, find (name_is n) existing = Some c -> In c existing /\ node_name c = n)
  /\ (find (name_is n) existing = None <-> forall c, In c existing -> node_name c <> n)
  /\ (find (name_is n) existing = None <-> find (name_is n) reordered = None)
  /\ (forall before sub after c,
        entries = before ++ (n, sub) :: after ->
        find (name_is n) existing = Some c ->
        let '(ws0, g0) := forEachName context parent layout depth rec existing before g in
        let '(ws1, g1) := materialize context c sub layout (S depth) g0 in
        let '(ws2, g2) := forEachName context parent layout depth rec existing after g1 in
        materialize context parent (Group entries) layout depth g
        = (ws0 ++ ws1 ++ ws2, g2)).
Proof.
  intros existing rec.
  split; [apply by_names_materialize|].
  split; [apply by_child_materialize|].
  split; [unfold getChildrenByNames; now rewrite map_map|].
  split; [reflexivity|].
  split; [|split; [|split]].
  - intros c Hc. apply find_some in Hc. destruct Hc as [Hin Hname].
    split; [assumption|]. now apply String.eqb_eq.
  - split.
    + intros Hnone c Hin E. pose proof (find_none _ _ Hnone c Hin) as F.
      unfold name_is in F. apply String.eqb_neq in F. contradiction.
    + intros Hall. apply find_all_false. rewrite Forall_forall. intros c Hin.
      apply String.eqb_neq. now apply Hall.
  - split; intros H.
    + exact (find_none_permutation n _ _ Hperm H).
    + exact (find_none_permutation n _ _ (Permutation_sym Hperm) H).
  - intros before sub after c -> Hfind. simpl.
    fold existing. fold rec. rewrite forEachName_app.
    destruct (forEachName _ _ _ _ _ _ before g) as [ws0 g0]. simpl.
    rewrite Hfind.
    change (rec c sub g0) with (materialize context c sub layout (S depth) g0).
    destruct (materialize context c sub layout (S depth) g0) as [ws1 g1].
    destruct (forEachName _ _ _ _ _ _ after g1) as [ws2 g2]. reflexivity.
Qed.

Lemma name_matching_witness :
  Permutation (getChildren scenario_reuse_graph 0 (Some "hasFloor"%string))
              [mkNode 1 "B1" (Some "Building"%string)]
  /\ (forall c,
        find (name_is "B1")
             (getChildren scenario_reuse_graph 0 (Some "hasFloor"%string)) = Some c ->
        In c (getChildren scenario_reuse_graph 0 (Some "hasFloor"%string))
        /\ node_name c = "B1"%string).
Proof.
  split; [apply Permutation_refl|].
  apply (name_matching scenario_root scenario_root
           [("B1"%string, Group [("F1"%string, Leaf [mkItem 1 "Chair" []])])]
           scenario_layout 0 scenario_reuse_graph
           [mkNode 1 "B1" (Some "Building"%string)] "B1"%string).
  apply Permutation_refl.
Defined.

(** ** Layout reads *)

Lemma by_names_reads (layout : Layout) (t : TmpTree) :
  forall (context parent : Node) (depth : nat) (g : Graph),
    within (layout_length layout) t depth ->
    Forall (read_in_bounds layout)
           (fst (generateGeoContextRec context parent t layout depth g)).
Proof.
  induction t as [entries IH|items] using TmpTree_induction;
    intros context parent depth g Hin.
  - inversion Hin as [|? ? Hd Hsub]; subst. unfold layout_length in Hd.
    assert (Ht : depth < length (types layout)) by lia.
    assert (Hr : depth < length (relations layout)) by lia.
    simpl.
    pose proof (forEachFound_reads context parent layout depth
                  (fun c v g1 => generateGeoContextRec context c v layout (S depth) g1)
                  entries Ht Hr) as H.
    assert (Hrec : Forall (fun e => forall c g0,
                             Forall (read_in_bounds layout)
                                    (fst (generateGeoContextRec context c (snd e) layout
                                            (S depth) g0))) entries).
    { rewrite Forall_forall in *. intros e He c g0. apply IH; auto. }
    specialize (H Hrec
                  (getChildrenByNames g parent (map fst entries) (relation_at layout depth)) g).
    destruct (forEachFound _ _ _ _ _ entries _ g) as [evs g']. simpl in *.
    constructor; [simpl; split; [assumption|now apply nth_error_Some]|].
    constructor; [exact I|assumption].
  - simpl. clear. revert g. induction items as [|it items IH]; intros g; simpl.
    + constructor.
    + specialize (IH (addBIMObject g (node_id context) (node_id parent) (dbId it) (name it))).
      destruct (attachLeaf _ _ items _) as [evs g']. constructor; [exact I|exact IH].
Qed.

Lemma by_child_reads (layout : Layout) (t : TmpTree) :
  forall (context parent : Node) (depth : nat) (g : Graph),
    within (layout_length layout) t depth ->
    Forall (read_in_bounds layout)
           (fst (GenerateGeoContextRec context parent t layout depth g)).
Proof.
  induction t as [entries IH|items] using TmpTree_induction;
    intros context parent depth g Hin.
  - inversion Hin as [|? ? Hd Hsub]; subst. unfold layout_length in Hd.
    assert (Ht : depth < length (types layout)) by lia.
    assert (Hr : depth < length (relations layout)) by lia.
    simpl.
    pose proof (forEachFound_reads context parent layout depth
                  (fun c v g1 => GenerateGeoContextRec context c v layout (S depth) g1)
                  entries Ht Hr) as H.
    assert (Hrec : Forall (fun e => forall c g0,
                             Forall (read_in_bounds layout)
                                    (fst (GenerateGeoContextRec context c (snd e) layout
                                            (S depth) g0))) entries).
    { rewrite Forall_forall in *. intros e He c g0. apply IH; auto. }
    specialize (H Hrec
                  (map (fun e => getChild g parent (fst e) (relation_at layout depth)) entries)
                  g).
    destruct (forEachFound _ _ _ _ _ entries _ g) as [evs g']. simpl in *.
    apply Forall_app. split; [|assumption].
    clear - Hr. induction entries as [|e entries IHe]; simpl; [constructor|].
    constructor; [simpl; split; [assumption|now apply nth_error_Some]|].
    constructor; [exact I|assumption].
  - simpl. clear. revert g. induction items as [|it items IH]; intros g; simpl.
    + constructor.
    + specialize (IH (addBIMObject g (node_id context) (node_id parent) (dbId it) (name it))).
      destruct (attachLeaf _ _ items _) as [evs g']. constructor; [exact I|exact IH].
Qed.

(** C9: when every map of the tree lies at a depth below the layout's
    length, each read of [layout.relations] and [layout.types] made by
    either generator is within the array and gives a value; and a leaf reads
    the layout not at all, at any depth. *)
Theorem layout_reads_in_bounds
    (context parent : Node) (t : TmpTree) (layout : Layout) (depth : nat) (g : Graph)
    (Hwithin : within (layout_length layout) t depth) :
  Forall (read_in_bounds layout)
         (fst (generateGeoContextRec context parent t layout depth g))
  /\ Forall (read_in_bounds layout)
            (fst (GenerateGeoContextRec context parent t layout depth g))
  /\ forall items p d g',
       within (layout_length layout) (Leaf items) d
       /\ layout_reads (fst (generateGeoContextRec context p (Leaf items) layout d g')) = []
       /\ layout_reads (fst (GenerateGeoContextRec context p (Leaf items) layout d g')) = [].
Proof.
  split; [now apply by_names_reads|].
  split; [now apply by_child_reads|].
  intros items p d g'. split; [constructor|]. simpl.
  split; apply attachLeaf_log.
Qed.

Lemma layout_reads_in_bounds_witness :
  within (layout_length scenario_layout) scenario_tree 0
  /\ Forall (read_in_bounds scenario_layout)
            (fst (generateGeoContextRec scenario_root scenario_root scenario_tree
                    scenario_layout 0 empty_graph)).
Proof.
  assert (H : within (layout_length scenario_layout) scenario_tree 0).
  { unfold scenario_tree, scenario_layout, layout_length. simpl.
    repeat (constructor; simpl; try lia). }
  split; [exact H|].
  apply (layout_reads_in_bounds scenario_root scenario_root scenario_tree
           scenario_layout 0 empty_graph H).
Defined.

(** A map one level too deep reads past the end of both arrays. *)
Example read_out_of_bounds :
  fst (generateGeoContextRec scenario_root scenario_root two_names_tree
         one_level_layout 1 empty_graph)
  = [LayoutRelation 1; GetChildren 0 None;
     LayoutType 1; NewNode (mkNode 1 "A" None); LayoutRelation 1;
     Yield (AddChildInContext 0 (mkNode 1 "A" None) None 0);
     LayoutType 1; NewNode (mkNode 2 "B" None); LayoutRelation 1;
     Yield (AddChildInContext 0 (mkNode 2 "B" None) None 0)].
Proof. reflexivity. Qed.

(** ** Progress *)

(** C6, at the failing input: 150 items, each in a group of its own, under
    a one-level layout and an empty context give 150 creations and 150
    attachments, that is one wait at 300 writes; the increment is
    80 * 300 / 150 = 160, so progress reads 10, 20, 180 and then 100. *)
Theorem generateGeoContext_progress_overshoot :
  let r := generateGeoContext createTmpTree_model scenario_root one_level_layout
             (distinct_props 150) empty_graph in
  length (yielded (run_events r)) = 300
  /\ progress_history (run_steps r) = [Finite 10; Finite 20; Finite 180; Finite 100]
  /\ non_decreasing (progress_history (run_steps r)) = false
  /\ forallb in_percent_range (progress_history (run_steps r)) = false.
Proof. vm_compute. auto. Qed.

(** ** The entry points *)

(** C7: when the filter yields no qualifying item, [GenerateGeoContext]
    returns at once: its whole run is the filter call and the context
    initialisation it issues together with it; no tree is built, the
    generator is not started (no resolver call, no creation, no attachment,
    no wait), the links, attachments and identities of the store are
    untouched, and the result is [undefined]. *)
Theorem GenerateGeoContext_empty_short_circuit
    (hasProperties : list Z -> list string -> list Item)
    (createTmpTree : list Item -> TmpTree)
    (context : Node) (layout : Layout) (referencial : list Z) (g : Graph)
    (Hempty : hasProperties referencial (keys layout) = []) :
  let r := GenerateGeoContext hasProperties createTmpTree context layout referencial g in
  run_steps r = [HasProperties referencial (keys layout); GetContext]
  /\ run_events r = []
  /\ run_graph r = getContext g
  /\ edges (run_graph r) = edges g
  /\ bimObjects (run_graph r) = bimObjects g
  /\ next_id (run_graph r) = next_id g
  /\ run_result r = JsUndefined.
Proof.
  unfold GenerateGeoContext. rewrite Hempty. simpl. repeat split.
Qed.

Lemma GenerateGeoContext_empty_short_circuit_witness :
  hasProperties_model [] (keys one_level_layout) = []
  /\ (let r := GenerateGeoContext hasProperties_model createTmpTree_model scenario_root
                 one_level_layout [] empty_graph in
      run_steps r = [HasProperties [] (keys one_level_layout); GetContext]
      /\ run_events r = []
      /\ run_graph r = getContext empty_graph
      /\ edges (run_graph r) = edges empty_graph
      /\ bimObjects (run_graph r) = bimObjects empty_graph
      /\ next_id (run_graph r) = next_id empty_graph
      /\ run_result r = JsUndefined).
Proof.
  split; [reflexivity|].
  apply (GenerateGeoContext_empty_short_circuit hasProperties_model createTmpTree_model
           scenario_root one_level_layout [] empty_graph).
  reflexivity.
Defined.

(** C8: [generateGeoContext] has no test on the item list: with no item it
    sets progress to 10, builds the tree of the empty list, sets progress to
    20, runs the generator over that tree and ends by setting progress to
    100; when the tree of the empty list is the empty map, the generator
    makes its one lookup, nothing is written or waited for, and the store is
    left as it was. *)
Theorem generateGeoContext_empty_proceeds
    (createTmpTree : list Item -> TmpTree)
    (context : Node) (layout : Layout) (g : Graph)
    (Hdegenerate : createTmpTree [] = Group []) :
  let r := generateGeoContext createTmpTree context layout [] g in
  run_steps r
  = [SetProgress (Finite 10); CreateTmpTree []; SetProgress (Finite 20);
     SetProgress (Finite 100)]
  /\ run_events r
     = fst (generateGeoContextRec context context (createTmpTree []) layout 0 g)
  /\ run_events r
     = [LayoutRelation 0; GetChildren (node_id context) (relation_at layout 0)]
  /\ run_graph r = g
  /\ run_result r = JsUndefined.
Proof.
  unfold generateGeoContext. rewrite Hdegenerate. simpl. repeat split.
Qed.

Lemma generateGeoContext_empty_proceeds_witness :
  createTmpTree_model [] = Group []
  /\ (let r := generateGeoContext createTmpTree_model scenario_root scenario_layout []
                 empty_graph in
      run_steps r
      = [SetProgress (Finite 10); CreateTmpTree []; SetProgress (Finite 20);
         SetProgress (Finite 100)]
      /\ run_events r
         = fst (generateGeoContextRec scenario_root scenario_root (createTmpTree_model [])
                  scenario_layout 0 empty_graph)
      /\ run_events r
         = [LayoutRelation 0; GetChildren (node_id scenario_root)
                                (relation_at scenario_layout 0)]
      /\ run_graph r = empty_graph
      /\ run_result r = JsUndefined).
Proof.
  split; [reflexivity|].
  apply (generateGeoContext_empty_proceeds createTmpTree_model scenario_root
           scenario_layout empty_graph).
  reflexivity.
Defined.

(** C10: [GenerateGeoContext] resolves to [undefined] on both of its paths,
    whatever the collaborators answer. *)
Theorem GenerateGeoContext_returns_undefined
    (hasProperties : list Z -> list string -> list Item)
    (createTmpTree : list Item -> TmpTree)
    (context : Node) (layout : Layout) (referencial : list Z) (g : Graph) :
  run_result (GenerateGeoContext hasProperties createTmpTree context layout referencial g)
  = JsUndefined.
Proof.
  unfold GenerateGeoContext.
  destruct (Nat.eqb (length (hasProperties referencial (keys layout))) 0); [reflexivity|].
  destruct (GenerateGeoContextRec _ _ _ _ _ _) as [evs g1].
  destruct (GenerateGeoContext_loop _ _) as [steps promises]. reflexivity.
Qed.

(** * Further properties of the code *)

(** ** [waitForFileSystem] *)

Lemma poll_sound (objects : Registry) (fuel : nat) :
  forall (tick : nat) (nodes : list nat) (u : nat),
    poll objects tick nodes fuel = Some u ->
    tick <= u
    /\ (forall n, In n nodes -> exists v, tick <= v <= u /\ objects v n = true)
    /\ (forall t', tick <= t' < u ->
          exists n, In n nodes /\ forall v, tick <= v <= t' -> objects v n = false).
Proof.
  induction fuel as [|fuel IH]; intros tick nodes u H; simpl in H; [discriminate|].
  destruct (filter (fun node => negb (objects tick node)) nodes) as [|m rest] eqn:F.
  - injection H as <-. split; [lia|]. split; [|intros t' Ht; lia].
    intros n Hn. exists tick. split; [lia|].
    destruct (objects tick n) eqn:E; [reflexivity|].
    assert (Hin : In n (filter (fun node => negb (objects tick node)) nodes)).
    { apply filter_In. split; [assumption|]. now rewrite E. }
    rewrite F in Hin. destruct Hin.
  - destruct (IH _ _ _ H) as [Hle [Hseen Hmin]]. split; [lia|]. split.
    + intros n Hn. destruct (objects tick n) eqn:E.
      * exists tick. split; [lia|assumption].
      * assert (Hin : In n (m :: rest)).
        { rewrite <- F. apply filter_In. split; [assumption|]. now rewrite E. }
        destruct (Hseen n Hin) as [v [Hv Ho]]. exists v. split; [lia|assumption].
    + assert (Hsub : forall n, In n (m :: rest) -> In n nodes /\ objects tick n = false).
      { intros n Hn. rewrite <- F in Hn. apply filter_In in Hn. destruct Hn as [Hn E].
        split; [assumption|]. now destruct (objects tick n). }
      intros t' Ht. destruct (Nat.eq_dec t' tick) as [->|Hne].
      * exists m. destruct (Hsub m (or_introl eq_refl)) as [Hn E].
        split; [assumption|]. intros v Hv. now replace v with tick by lia.
      * destruct (Hmin t' ltac:(lia)) as [n [Hn Hfalse]].
        destruct (Hsub n Hn) as [Hn' E]. exists n. split; [assumption|].
        intros v Hv. destruct (Nat.eq_dec v tick) as [->|Hv']; [assumption|].
        apply Hfalse. lia.
Qed.

Lemma poll_complete (objects : Registry) (fuel : nat) :
  forall (tick : nat) (nodes : list nat),
    0 < fuel ->
    (forall n, In n nodes -> exists v, tick <= v < tick + fuel /\ objects v n = true) ->
    exists u, poll objects tick nodes fuel = Some u /\ u < tick + fuel.
Proof.
  induction fuel as [|fuel IH]; intros tick nodes Hfuel Hall; [lia|]. simpl.
  destruct (filter (fun node => negb (objects tick node)) nodes) as [|m rest] eqn:F.
  - exists tick. split; [reflexivity|lia].
  - assert (Hsub : forall n, In n (m :: rest) ->
                     exists v, S tick <= v < S tick + fuel /\ objects v n = true).
    { intros n Hn. rewrite <- F in Hn. apply filter_In in Hn. destruct Hn as [Hn E].
      destruct (Hall n Hn) as [v [Hv Ho]]. exists v. split; [|assumption].
      destruct (Nat.eq_dec v tick) as [->|Hne]; [|lia].
      rewrite Ho in E. discriminate. }
    assert (Hpos : 0 < fuel).
    { destruct (Hsub m (or_introl eq_refl)) as [v [Hv _]]. lia. }
    destruct (IH (S tick) (m :: rest) Hpos Hsub) as [u [Hu Hlt]].
    exists u. split; [assumption|lia].
Qed.

Lemma poll_stall (objects : Registry) (n : nat) (fuel : nat) :
  forall (tick : nat) (nodes : list nat),
    In n nodes -> (forall v, tick <= v -> objects v n = false) ->
    poll objects tick nodes fuel = None.
Proof.
  induction fuel as [|fuel IH]; intros tick nodes Hn Hnever; simpl; [reflexivity|].
  assert (Hin : In n (filter (fun node => negb (objects tick node)) nodes)).
  { apply filter_In. split; [assumption|]. rewrite Hnever; [reflexivity|lia]. }
  destruct (filter (fun node => negb (objects tick node)) nodes) as [|m rest];
    [destruct Hin|].
  apply IH; [assumption|]. intros v Hv. apply Hnever. lia.
Qed.

(** X1: when every node of the batch is in [FileSystem._objects] at some
    firing among the first [fuel] ones, the wait resolves, at one of those
    firings. *)
Theorem waitForFileSystem_returns
    (objects : Registry) (now : nat) (nodes : list nat) (fuel : nat)
    (Hfuel : 0 < fuel)
    (Hseen : forall n, In n nodes ->
               exists v, now < v <= now + fuel /\ objects v n = true) :
  exists u, waitForFileSystem objects now nodes fuel = Some u /\ now < u <= now + fuel.
Proof.
  unfold waitForFileSystem.
  destruct (poll_complete objects fuel (S now) nodes Hfuel) as [u [Hu Hlt]].
  - intros n Hn. destruct (Hseen n Hn) as [v [Hv Ho]]. exists v. split; [lia|assumption].
  - exists u. split; [assumption|].
    destruct (poll_sound _ _ _ _ _ Hu) as [Hle _]. lia.
Qed.

Lemma waitForFileSystem_returns_witness :
  0 < 3
  /\ (forall n, In n [1; 3; 2] ->
        exists v, 0 < v <= 0 + 3 /\ staged_registry v n = true)
  /\ exists u, waitForFileSystem staged_registry 0 [1; 3; 2] 3 = Some u /\ 0 < u <= 0 + 3.
Proof.
  assert (H : forall n, In n [1; 3; 2] ->
                exists v, 0 < v <= 0 + 3 /\ staged_registry v n = true).
  { intros n [<-|[<-|[<-|[]]]]; [exists 1|exists 3|exists 2]; split; try lia; reflexivity. }
  split; [lia|]. split; [exact H|].
  apply (waitForFileSystem_returns staged_registry 0 [1; 3; 2] 3); [lia|exact H].
Defined.

(** X2: the firing at which the wait resolves is the first one by which
    every node of the batch has been seen in [FileSystem._objects] at some
    firing since the call; a node seen once is not looked at again. *)
Theorem waitForFileSystem_first_complete_firing
    (objects : Registry) (now : nat) (nodes : list nat) (fuel u : nat)
    (Hresolved : waitForFileSystem objects now nodes fuel = Some u) :
  now < u
  /\ (forall n, In n nodes -> exists v, now < v <= u /\ objects v n = true)
  /\ (forall t', now < t' < u ->
        exists n, In n nodes /\ forall v, now < v <= t' -> objects v n = false).
Proof.
  unfold waitForFileSystem in Hresolved.
  destruct (poll_sound _ _ _ _ _ Hresolved) as [Hle [Hseen Hmin]].
  split; [lia|]. split.
  - intros n Hn. destruct (Hseen n Hn) as [v [Hv Ho]]. exists v. split; [lia|assumption].
  - intros t' Ht. destruct (Hmin t' ltac:(lia)) as [n [Hn Hf]].
    exists n. split; [assumption|]. intros v Hv. apply Hf. lia.
Qed.

Lemma waitForFileSystem_first_complete_firing_witness :
  waitForFileSystem staged_registry 0 [1; 3; 2] 5 = Some 3
  /\ 0 < 3
  /\ (forall n, In n [1; 3; 2] -> exists v, 0 < v <= 3 /\ staged_registry v n = true)
  /\ (forall t', 0 < t' < 3 ->
        exists n, In n [1; 3; 2] /\ forall v, 0 < v <= t' -> staged_registry v n = false).
Proof.
  split; [reflexivity|].
  apply (waitForFileSystem_first_complete_firing staged_registry 0 [1; 3; 2] 5 3).
  reflexivity.
Defined.

(** X3: when one node of the batch never appears in [FileSystem._objects],
    the wait does not resolve, however many firings are looked at: there is
    no timeout. *)
Theorem waitForFileSystem_stalls
    (objects : Registry) (now : nat) (nodes : list nat) (n : nat)
    (Hin : In n nodes)
    (Hnever : forall v, now < v -> objects v n = false) :
  forall fuel, waitForFileSystem objects now nodes fuel = None.
Proof.
  intros fuel. unfold waitForFileSystem.
  apply (poll_stall objects n); [assumption|]. intros v Hv. apply Hnever. lia.
Qed.

Lemma waitForFileSystem_stalls_witness :
  In 7 [1; 7]
  /\ (forall v, 0 < v -> (fun t id => Nat.eqb id 1) v 7 = false)
  /\ forall fuel, waitForFileSystem (fun t id => Nat.eqb id 1) 0 [1; 7] fuel = None.
Proof.
  split; [simpl; auto|]. split; [reflexivity|].
  apply (waitForFileSystem_stalls (fun t id => Nat.eqb id 1) 0 [1; 7] 7).
  - simpl. auto.
  - reflexivity.
Defined.

(** An empty batch still waits for one firing of the timer. *)
Example waitForFileSystem_empty (objects : Registry) (now fuel : nat) :
  waitForFileSystem objects now [] (S fuel) = Some (S now)
  /\ waitForFileSystem objects now [] 0 = None.
Proof. split; reflexivity. Qed.

(** ** The generators and the store *)

Lemma announces_nil (g g' : Graph) :
  edges g' = edges g -> bimObjects g' = bimObjects g -> next_id g' = next_id g ->
  bimContext g' = bimContext g -> announces g [] g'.
Proof.
  intros He Hb Hn Hc. unfold announces. simpl. rewrite !app_nil_r.
  repeat split; try assumption. lia.
Qed.

Lemma announces_app (g g1 g2 : Graph) (ws1 ws2 : list PendingWrite) :
  announces g ws1 g1 -> announces g1 ws2 g2 -> announces g (ws1 ++ ws2) g2.
Proof.
  intros [He1 [Hb1 [Hn1 Hc1]]] [He2 [Hb2 [Hn2 Hc2]]]. unfold announces.
  unfold written_edges, written_bim, creations in *.
  rewrite !flat_map_app, length_app, !app_assoc.
  repeat split; try congruence. lia.
Qed.

Lemma attachAll_announces (ctx p : NodeId) (items : list Item) (g : Graph) :
  announces g (fst (attachAll ctx p items g)) (snd (attachAll ctx p items g))
  /\ attachments (fst (attachAll ctx p items g))
     = map (fun it => (dbId it, name it)) items
  /\ Forall (fun w => match w with
                      | AddBIMObject c q _ _ => c = ctx /\ q = p
                      | AddChildInContext _ _ _ _ => False
                      end) (fst (attachAll ctx p items g)).
Proof.
  revert g. induction items as [|it items IH]; intros g; simpl.
  - split; [now apply announces_nil|]. split; [reflexivity|constructor].
  - specialize (IH (addBIMObject g ctx p (dbId it) (name it))).
    destruct (attachAll ctx p items _) as [ws g']. simpl in *.
    destruct IH as [Ha [Hi Hf]]. split; [|split].
    + apply (announces_app g (addBIMObject g ctx p (dbId it) (name it)) g'
               [AddBIMObject ctx p (dbId it) (name it)] ws); [|assumption].
      unfold announces. simpl. rewrite app_nil_r. repeat split. lia.
    + now rewrite Hi.
    + constructor; auto.
Qed.

Section Effects.
Variables (context : Node) (layout : Layout).

Lemma forEachName_announces (parent : Node) (d : nat)
    (rec : Node -> TmpTree -> Graph -> list PendingWrite * Graph)
    (existing : list Node) (entries : list (string * TmpTree)) :
  Forall (fun e => forall c g,
            announces g (fst (rec c (snd e) g)) (snd (rec c (snd e) g))
            /\ attachments (fst (rec c (snd e) g))
               = map (fun it => (dbId it, name it)) (tree_items (snd e))
            /\ Forall (write_follows_layout context layout (S d))
                      (fst (rec c (snd e) g))) entries ->
  forall g,
    let r := forEachName context parent layout d rec existing entries g in
    announces g (fst r) (snd r)
    /\ attachments (fst r)
       = map (fun it => (dbId it, name it))
             (flat_map (fun e => tree_items (snd e)) entries)
    /\ Forall (write_follows_layout context layout d) (fst r).
Proof.
  assert (Hweak : forall ws,
            Forall (write_follows_layout context layout (S d)) ws ->
            Forall (write_follows_layout context layout d) ws).
  { intros ws H. eapply Forall_impl; [|exact H]. intros [p c r ctx|ctx p id nm]; simpl; auto.
    intros [Hc [k [Hk Hr]]]. split; [assumption|]. exists k. split; [lia|assumption]. }
  induction 1 as [|[n sub] entries Hhead _ IH]; intros g; simpl.
  - split; [now apply announces_nil|]. split; [reflexivity|constructor].
  - destruct (find (name_is n) existing) as [c|].
    + destruct (Hhead c g) as [Ha1 [Hi1 Hf1]]. simpl in Ha1, Hi1, Hf1.
      destruct (rec c sub g) as [ws1 g1]. simpl in *.
      specialize (IH g1). simpl in IH.
      destruct (forEachName _ _ _ _ _ _ entries g1) as [ws2 g2]. simpl in *.
      destruct IH as [Ha2 [Hi2 Hf2]]. split; [|split].
      * eapply announces_app; eauto.
      * unfold attachments in *. now rewrite flat_map_app, map_app, Hi1, Hi2.
      * apply Forall_app. auto.
    + set (c := mkNode (next_id g) n (type_at layout d)).
      set (g1 := addChildInContext _ _ _ _ _).
      destruct (Hhead c g1) as [Ha1 [Hi1 Hf1]]. simpl in Ha1, Hi1, Hf1.
      destruct (rec c sub g1) as [ws1 g2]. simpl in *.
      specialize (IH g2). simpl in IH.
      destruct (forEachName _ _ _ _ _ _ entries g2) as [ws2 g3]. simpl in *.
      destruct IH as [Ha2 [Hi2 Hf2]]. split; [|split].
      * apply (announces_app g g1 g3
                 [AddChildInContext (node_id parent) c (relation_at layout d)
                    (node_id context)] (ws1 ++ ws2)).
        -- unfold announces, g1. simpl. rewrite app_nil_r. repeat split. lia.
        -- eapply announces_app; eauto.
      * unfold attachments in *. now rewrite flat_map_app, map_app, Hi1, Hi2.
      * constructor; [|apply Forall_app; auto].
        simpl. split; [reflexivity|]. exists d. auto.
Qed.

Lemma tree_items_Group (entries : list (string * TmpTree)) :
  tree_items (Group entries) = flat_map (fun e => tree_items (snd e)) entries.
Proof.
  simpl. induction entries as [|[n t] entries IH]; simpl; [reflexivity|].
  now rewrite IH.
Qed.

Lemma materialize_announces (t : TmpTree) :
  forall (parent : Node) (d : nat) (g : Graph),
    let r := materialize context parent t layout d g in
    announces g (fst r) (snd r)
    /\ attachments (fst r) = map (fun it => (dbId it, name it)) (tree_items t)
    /\ Forall (write_follows_layout context layout d) (fst r).
Proof.
  induction t as [entries IH|items] using TmpTree_induction; intros parent d g.
  - rewrite tree_items_Group. simpl.
    apply (forEachName_announces parent d
             (fun c subtree g1 => materialize context c subtree layout (S d) g1)).
    eapply Forall_impl; [|exact IH]. intros e He c g0. apply He.
  - simpl.
    destruct (attachAll_announces (node_id context) (node_id parent) items g)
      as [Ha [Hi Hf]].
    split; [assumption|]. split; [assumption|].
    eapply Forall_impl; [|exact Hf]. intros [p c r ctx|ctx p id nm]; simpl; tauto.
Qed.
End Effects.

Lemma writes_split (ws : list PendingWrite) :
  length ws = length (creations ws) + length (attachments ws).
Proof.
  induction ws as [|[p c r ctx|ctx p id nm] ws IH]; simpl; lia.
Qed.

Lemma forEachFound_without_lookups (context parent : Node) (layout : Layout)
    (depth : nat) (recA recB : Node -> TmpTree -> Graph -> list Event * Graph)
    (entries : list (string * TmpTree)) :
  Forall (fun e => forall c g,
            without_lookups (fst (recA c (snd e) g))
            = without_lookups (fst (recB c (snd e) g))
            /\ snd (recA c (snd e) g) = snd (recB c (snd e) g)) entries ->
  forall found g,
    without_lookups (fst (forEachFound context parent layout depth recA entries found g))
    = without_lookups (fst (forEachFound context parent layout depth recB entries found g))
    /\ snd (forEachFound context parent layout depth recA entries found g)
       = snd (forEachFound context parent layout depth recB entries found g).
Proof.
  induction 1 as [|[n sub] entries Hhead _ IH]; intros found g.
  - destruct found; simpl; auto.
  - destruct found as [|child found]; [simpl; auto|]. simpl.
    destruct child as [c|].
    + destruct (Hhead c g) as [Hw Hg]. simpl in Hw, Hg.
      destruct (recA c sub g) as [evsA gA]. destruct (recB c sub g) as [evsB gB].
      simpl in Hw, Hg. subst gB. destruct (IH found gA) as [Hw2 Hg2].
      destruct (forEachFound _ _ _ _ recA entries found gA) as [evsA' gA'].
      destruct (forEachFound _ _ _ _ recB entries found gA) as [evsB' gB'].
      simpl in *. unfold without_lookups in *.
      rewrite !filter_app, Hw, Hw2. auto.
    + unfold createChild, newNode.
      set (c := mkNode (next_id g) n (type_at layout depth)).
      set (g1 := addChildInContext _ _ _ _ _).
      destruct (Hhead c g1) as [Hw Hg]. simpl in Hw, Hg.
      destruct (recA c sub g1) as [evsA gA]. destruct (recB c sub g1) as [evsB gB].
      simpl in Hw, Hg. subst gB. destruct (IH found gA) as [Hw2 Hg2].
      destruct (forEachFound _ _ _ _ recA entries found gA) as [evsA' gA'].
      destruct (forEachFound _ _ _ _ recB entries found gA) as [evsB' gB'].
      simpl in *. unfold without_lookups in *.
      rewrite !filter_app, Hw, Hw2. auto.
Qed.

Lemma generators_same_but_lookups (t : TmpTree) :
  forall (context parent : Node) (layout : Layout) (depth : nat) (g : Graph),
    without_lookups (fst (generateGeoContextRec context parent t layout depth g))
    = without_lookups (fst (GenerateGeoContextRec context parent t layout depth g))
    /\ snd (generateGeoContextRec context parent t layout depth g)
       = snd (GenerateGeoContextRec context parent t layout depth g).
Proof.
  induction t as [entries IH|items] using TmpTree_induction;
    intros context parent layout depth g; [|split; reflexivity].
  simpl. unfold getChildrenByNames, getChild. rewrite map_map.
  destruct (forEachFound_without_lookups context parent layout depth
              (fun c v g1 => generateGeoContextRec context c v layout (S depth) g1)
              (fun c v g1 => GenerateGeoContextRec context c v layout (S depth) g1)
              entries) with
      (found := map (fun e => find (name_is (fst e))
                                 (getChildren g (node_id parent) (relation_at layout depth)))
                    entries) (g := g) as [Hw Hg].
  { eapply Forall_impl; [|exact IH]. intros e He c g0. apply He. }
  destruct (forEachFound _ _ _ _ _ entries _ g) as [evsA gA].
  destruct (forEachFound _ _ _ _ _ entries _ g) as [evsB gB].
  simpl in *. split; [|assumption].
  unfold without_lookups in *. rewrite filter_app, Hw.
  replace (filter _ (flat_map _ entries)) with (@nil Event); [reflexivity|].
  clear. induction entries; simpl; auto.
Qed.

(** X4: the two generators are interchangeable for a consumer: on every
    input they yield the same writes in the same order, create the same
    nodes and leave the same store; and their logs are the same once the
    resolver calls and the reads of [layout.relations] are left out, so the
    lookups are all they differ in. *)
Theorem generators_agree
    (context parent : Node) (t : TmpTree) (layout : Layout) (depth : nat) (g : Graph) :
  yielded (fst (generateGeoContextRec context parent t layout depth g))
  = yielded (fst (GenerateGeoContextRec context parent t layout depth g))
  /\ snd (generateGeoContextRec context parent t layout depth g)
     = snd (GenerateGeoContextRec context parent t layout depth g)
  /\ created_nodes (fst (generateGeoContextRec context parent t layout depth g))
     = created_nodes (fst (GenerateGeoContextRec context parent t layout depth g))
  /\ without_lookups (fst (generateGeoContextRec context parent t layout depth g))
     = without_lookups (fst (GenerateGeoContextRec context parent t layout depth g)).
Proof.
  pose proof (by_names_materialize t context parent layout depth g) as A.
  pose proof (by_child_materialize t context parent layout depth g) as B.
  rewrite <- B in A. injection A as Hw Hg.
  split; [assumption|]. split; [assumption|]. split.
  - now rewrite by_names_created, by_child_created, Hw.
  - apply generators_same_but_lookups.
Qed.

(** X5: every change a generator makes to the store is announced by a write
    it yields, in order, and every write is such a change: the links added
    are those of the creation writes, the attachments made those of the
    attachment writes, one identity is used per creation, and nothing that
    was in the store is removed or changed. *)
Theorem store_changes_are_yielded
    (context parent : Node) (t : TmpTree) (layout : Layout) (depth : nat) (g : Graph) :
  announces g (yielded (fst (generateGeoContextRec context parent t layout depth g)))
            (snd (generateGeoContextRec context parent t layout depth g))
  /\ announces g (yielded (fst (GenerateGeoContextRec context parent t layout depth g)))
               (snd (GenerateGeoContextRec context parent t layout depth g)).
Proof.
  pose proof (by_names_materialize t context parent layout depth g) as A.
  pose proof (by_child_materialize t context parent layout depth g) as B.
  pose proof (materialize_announces context layout t parent depth g) as [H _].
  rewrite <- A in H at 1 2. rewrite <- B in A. injection A as Hw Hg.
  simpl in H. split; [assumption|]. now rewrite <- Hw, <- Hg.
Qed.

(** X6: whatever the store holds, each item of the tree is attached exactly
    once, in the order of the tree, with its own [dbId] and [name]; the
    other writes are the creations. *)
Theorem items_attached_once_in_order
    (context parent : Node) (t : TmpTree) (layout : Layout) (depth : nat) (g : Graph)
    (ws : list PendingWrite)
    (Hrun : ws = yielded (fst (generateGeoContextRec context parent t layout depth g))
            \/ ws = yielded (fst (GenerateGeoContextRec context parent t layout depth g))) :
  attachments ws = map (fun it => (dbId it, name it)) (tree_items t)
  /\ length ws = length (creations ws) + length (tree_items t).
Proof.
  assert (Hw : ws = fst (materialize context parent t layout depth g)).
  { destruct Hrun as [-> | ->].
    - now rewrite <- by_names_materialize.
    - now rewrite <- by_child_materialize. }
  pose proof (materialize_announces context layout t parent depth g) as [_ [H _]].
  simpl in H. rewrite <- Hw in H. split; [assumption|].
  rewrite (writes_split ws), H. now rewrite length_map.
Qed.

Lemma items_attached_once_in_order_witness :
  let ws := yielded (fst (GenerateGeoContextRec scenario_root scenario_root scenario_tree
                            scenario_layout 0 scenario_reuse_graph)) in
  attachments ws = map (fun it => (dbId it, name it)) (tree_items scenario_tree)
  /\ length ws = length (creations ws) + length (tree_items scenario_tree).
Proof.
  apply (items_attached_once_in_order scenario_root scenario_root scenario_tree
           scenario_layout 0 scenario_reuse_graph).
  right. reflexivity.
Defined.

(** X7: every write a generator yields names the context it was given, and
    every node it creates has the type of the very depth whose relation
    links it to its parent. *)
Theorem writes_follow_layout
    (context parent : Node) (t : TmpTree) (layout : Layout) (depth : nat) (g : Graph) :
  Forall (write_follows_layout context layout depth)
         (yielded (fst (generateGeoContextRec context parent t layout depth g)))
  /\ Forall (write_follows_layout context layout depth)
            (yielded (fst (GenerateGeoContextRec context parent t layout depth g))).
Proof.
  pose proof (by_names_materialize t context parent layout depth g) as A.
  pose proof (by_child_materialize t context parent layout depth g) as B.
  pose proof (materialize_announces context layout t parent depth g) as [_ [_ H]].
  simpl in H. rewrite <- A in H at 1. rewrite <- B in A. injection A as Hw Hg.
  simpl in H. split; [assumption|]. now rewrite <- Hw.
Qed.

(** ** A parent without children *)

Lemma no_children_of_next (g : Graph) (r : option string) :
  ids_below g -> getChildren g (next_id g) r = [].
Proof.
  intros Hg. unfold getChildren.
  replace (filter _ (edges g)) with (@nil Edge); [reflexivity|].
  symmetry. unfold ids_below in Hg.
  induction Hg as [|e es [Hp _] _ IH]; simpl; [reflexivity|].
  unfold edge_matches at 1.
  destruct (Nat.eqb_spec (edge_parent e) (next_id g)) as [E|E]; [lia|]. simpl. exact IH.
Qed.

Section Fresh.
Variables (context : Node) (layout : Layout).

Lemma forEachName_fresh (parent : Node) (d : nat)
    (rec : Node -> TmpTree -> Graph -> list PendingWrite * Graph)
    (entries : list (string * TmpTree)) :
  Forall (fun e => forall c g,
            ids_below g -> node_id c < next_id g ->
            getChildren g (node_id c) (relation_at layout (S d)) = [] ->
            length (creations (fst (rec c (snd e) g))) = entry_count (snd e)
            /\ ids_below (snd (rec c (snd e) g))
            /\ next_id g <= next_id (snd (rec c (snd e) g))) entries ->
  forall g,
    ids_below g -> node_id parent < next_id g ->
    let r := forEachName context parent layout d rec [] entries g in
    length (creations (fst r))
    = length entries + list_sum (map (fun e => entry_count (snd e)) entries)
    /\ ids_below (snd r) /\ next_id g <= next_id (snd r).
Proof.
  induction 1 as [|[n sub] entries Hhead _ IH]; intros g Hg Hp; simpl; [auto|].
  set (c := mkNode (next_id g) n (type_at layout d)).
  set (g1 := addChildInContext _ _ _ _ _).
  assert (Hg1 : ids_below g1).
  { unfold ids_below, g1. simpl. apply Forall_app. split.
    - eapply Forall_impl; [|exact Hg]. simpl. intros e [H1 H2]. lia.
    - constructor; [simpl; lia|constructor]. }
  assert (Hkids : getChildren g1 (node_id c) (relation_at layout (S d)) = []).
  { unfold getChildren, g1. simpl. rewrite filter_app, map_app.
    fold (getChildren g (next_id g) (relation_at layout (S d))).
    rewrite (no_children_of_next g _ Hg). simpl.
    unfold edge_matches. simpl.
    destruct (Nat.eqb_spec (node_id parent) (next_id g)) as [E|E]; [lia|reflexivity]. }
  destruct (Hhead c g1 Hg1 ltac:(simpl; lia) Hkids) as [Hn1 [Hb1 Hle1]].
  simpl in Hn1, Hb1, Hle1.
  destruct (rec c sub g1) as [ws1 g2]. simpl in *.
  destruct (IH g2 Hb1 ltac:(lia)) as [Hn2 [Hb2 Hle2]].
  destruct (forEachName _ _ _ _ _ _ entries g2) as [ws2 g3]. simpl in *.
  rewrite creations_app, length_app, Hn1, Hn2.
  split; [lia|]. split; [assumption|lia].
Qed.

Lemma materialize_fresh (t : TmpTree) :
  forall (parent : Node) (d : nat) (g : Graph),
    ids_below g -> node_id parent < next_id g ->
    getChildren g (node_id parent) (relation_at layout d) = [] ->
    length (creations (fst (materialize context parent t layout d g))) = entry_count t
    /\ ids_below (snd (materialize context parent t layout d g))
    /\ next_id g <= next_id (snd (materialize context parent t layout d g)).
Proof.
  induction t as [entries IH|items] using TmpTree_induction;
    intros parent d g Hg Hp Hkids.
  - rewrite entry_count_Group. simpl. rewrite Hkids.
    apply forEachName_fresh; auto.
    eapply Forall_impl; [|exact IH]. intros e He c g0. apply He.
  - simpl.
    destruct (attachAll_announces (node_id context) (node_id parent) items g)
      as [[He [_ [Hn _]]] [_ Hf]].
    destruct (ids_below_attachAll (node_id context) (node_id parent) items g Hg Hp)
      as [_ Hb].
    split; [|split; [assumption|lia]].
    clear - Hf. induction Hf as [|[p c r ctx|ctx p id nm] ws Hw _ IH]; simpl; tauto.
Qed.
End Fresh.

(** X8: under a parent that has no child yet under the relation of the
    starting depth, in a store whose identities are below the next one,
    nothing is reused: one node is created per entry of every map of the
    tree, so the run yields as many writes as the tree has entries and
    items. *)
Theorem fresh_parent_creates_every_entry
    (context parent : Node) (t : TmpTree) (layout : Layout) (depth : nat) (g : Graph)
    (ws : list PendingWrite)
    (Hstore : ids_below g) (Hparent : node_id parent < next_id g)
    (Hnone : getChildren g (node_id parent) (relation_at layout depth) = [])
    (Hrun : ws = yielded (fst (generateGeoContextRec context parent t layout depth g))
            \/ ws = yielded (fst (GenerateGeoContextRec context parent t layout depth g))) :
  length (creations ws) = entry_count t
  /\ length ws = entry_count t + length (tree_items t).
Proof.
  assert (Hw : ws = fst (materialize context parent t layout depth g)).
  { destruct Hrun as [-> | ->].
    - now rewrite <- by_names_materialize.
    - now rewrite <- by_child_materialize. }
  destruct (materialize_fresh context layout t parent depth g Hstore Hparent Hnone)
    as [Hc _].
  pose proof (materialize_announces context layout t parent depth g) as [_ [Hi _]].
  simpl in Hi. rewrite <- Hw in Hc, Hi. split; [assumption|].
  rewrite (writes_split ws), Hc, Hi. now rewrite length_map.
Qed.

Lemma fresh_parent_creates_every_entry_witness :
  ids_below empty_graph
  /\ node_id scenario_root < next_id empty_graph
  /\ getChildren empty_graph (node_id scenario_root) (relation_at scenario_layout 0) = []
  /\ (let ws := yielded (fst (generateGeoContextRec scenario_root scenario_root
                               scenario_tree scenario_layout 0 empty_graph)) in
      length (creations ws) = entry_count scenario_tree
      /\ length ws = entry_count scenario_tree + length (tree_items scenario_tree)).
Proof.
  split; [constructor|]. split; [simpl; lia|]. split; [reflexivity|].
  apply (fresh_parent_creates_every_entry scenario_root scenario_root scenario_tree
           scenario_layout 0 empty_graph).
  - constructor.
  - simpl. lia.
  - reflexivity.
  - left. reflexivity.
Defined.

(** ** Creating a child, then looking it up *)

(** X9: after the creation branch for a name, the children of the parent
    under the relation of the depth are those it had and the new node,
    which bears the name and the type of the depth; the name is then found
    by [getChild], on a child of that name; whether another name is found is
    as before; and the children under any other parent or relation are as
    they were.  Nothing here depends on the order in which children are
    listed. *)
Theorem created_child_is_found
    (context parent : Node) (layout : Layout) (depth : nat) (n : string) (g : Graph) :
  let c := fst (fst (createChild context parent layout depth n g)) in
  let g' := snd (createChild context parent layout depth n g) in
  node_name c = n
  /\ node_type c = type_at layout depth
  /\ (forall x, In x (getChildren g' (node_id parent) (relation_at layout depth))
                <-> In x (getChildren g (node_id parent) (relation_at layout depth))
                    \/ x = c)
  /\ (exists c', getChild g' parent n (relation_at layout depth) = Some c'
                 /\ node_name c' = n)
  /\ (forall m, m <> n ->
      (getChild g' parent m (relation_at layout depth) = None
       <-> getChild g parent m (relation_at layout depth) = None))
  /\ (forall q r, (q, r) <> (node_id parent, relation_at layout depth) ->
      getChildren g' q r = getChildren g q r).
Proof.
  intros c g'. unfold createChild, newNode in c, g'. simpl in c, g'.
  assert (Hk : getChildren g' (node_id parent) (relation_at layout depth)
               = getChildren g (node_id parent) (relation_at layout depth) ++ [c]).
  { unfold getChildren, g'. simpl. rewrite filter_app, map_app. simpl.
    unfold edge_matches at 2. simpl. rewrite Nat.eqb_refl.
    replace (relation_eqb (relation_at layout depth) (relation_at layout depth)) with true
      by (symmetry; now apply relation_eqb_eq).
    reflexivity. }
  split; [reflexivity|]. split; [reflexivity|]. split; [|split; [|split]].
  - intros x. rewrite Hk, in_app_iff. simpl. intuition.
  - unfold getChild. rewrite Hk.
    destruct (find (name_is n) (getChildren g (node_id parent) (relation_at layout depth)))
      as [c0|] eqn:F.
    + exists c0. split; [now apply find_app_some|].
      apply find_some in F. destruct F as [_ F]. now apply String.eqb_eq.
    + exists c. split; [|reflexivity]. rewrite (find_app_none _ _ _ F). simpl.
      unfold name_is. simpl. now rewrite String.eqb_refl.
  - intros m Hm. unfold getChild. rewrite Hk.
    destruct (find (name_is m) (getChildren g (node_id parent) (relation_at layout depth)))
      as [c0|] eqn:F.
    + rewrite (find_app_some _ _ _ _ F). split; discriminate.
    + rewrite (find_app_none _ _ _ F). simpl. unfold name_is. simpl.
      destruct (String.eqb_spec n m) as [E|E]; [congruence|]. split; reflexivity.
  - intros q r Hne. unfold getChildren, g'. simpl. rewrite filter_app, map_app. simpl.
    unfold edge_matches at 2. simpl.
    destruct (Nat.eqb_spec (node_id parent) q) as [E|E]; simpl.
    + destruct (relation_eqb (relation_at layout depth) r) eqn:R; [|now rewrite app_nil_r].
      apply relation_eqb_eq in R. subst. contradiction.
    + now rewrite app_nil_r.
Qed.

(** ** The entry points: batches, waits and the store *)

Lemma MAX_NON_SYNCHRONIZED_NODES_positive : 0 < MAX_NON_SYNCHRONIZED_NODES.
Proof. unfold MAX_NON_SYNCHRONIZED_NODES. lia. Qed.

Lemma MAX_NON_SYNCHRONIZED_NODES_value : MAX_NON_SYNCHRONIZED_NODES = 300.
Proof. reflexivity. Qed.

#[local] Opaque MAX_NON_SYNCHRONIZED_NODES.

Lemma waits_app (a b : list Step) : waits (a ++ b) = waits a ++ waits b.
Proof. apply flat_map_app. Qed.

Lemma waits_finalWait (promises : list PendingWrite) :
  waits (finalWait promises) = match promises with [] => [] | _ :: _ => [promises] end.
Proof. destruct promises; reflexivity. Qed.

Lemma GenerateGeoContext_loop_waits (stream : list PendingWrite) :
  forall promises : list PendingWrite,
    waits (fst (GenerateGeoContext_loop stream promises))
    = if (length promises <? MAX_NON_SYNCHRONIZED_NODES)
         && (MAX_NON_SYNCHRONIZED_NODES <=? length promises + length stream)
      then [firstn MAX_NON_SYNCHRONIZED_NODES (promises ++ stream)]
      else [].
Proof.
  induction stream as [|w stream IH]; intros promises; simpl.
  - destruct (Nat.ltb_spec (length promises) MAX_NON_SYNCHRONIZED_NODES) as [L|L];
      [|reflexivity].
    destruct (Nat.leb_spec MAX_NON_SYNCHRONIZED_NODES (length promises + 0)) as [M|M];
      [lia|reflexivity].
  - specialize (IH (promises ++ [w])).
    destruct (GenerateGeoContext_loop stream (promises ++ [w])) as [steps final].
    simpl in IH. rewrite length_app in IH. simpl in IH.
    rewrite <- app_assoc in IH. simpl in IH.
    destruct (Nat.eqb_spec (length (promises ++ [w])) MAX_NON_SYNCHRONIZED_NODES) as [E|E];
      rewrite length_app in E; simpl in E; simpl.
    + rewrite IH.
      destruct (Nat.ltb_spec (length promises + 1) MAX_NON_SYNCHRONIZED_NODES) as [L|L];
        [lia|]. simpl.
      destruct (Nat.ltb_spec (length promises) MAX_NON_SYNCHRONIZED_NODES) as [L'|L'];
        [|lia].
      destruct (Nat.leb_spec MAX_NON_SYNCHRONIZED_NODES
                  (length promises + S (length stream))) as [M|M]; [|lia].
      simpl. f_equal.
      replace (promises ++ w :: stream) with ((promises ++ [w]) ++ stream)
        by (now rewrite <- app_assoc).
      rewrite <- E.
      replace (length promises + 1) with (length (promises ++ [w]) + 0)
        by (rewrite length_app; simpl; lia).
      rewrite firstn_app_2. simpl. now rewrite app_nil_r.
    + rewrite IH.
      replace (length promises + 1 + length stream)
        with (length promises + S (length stream)) by lia.
      destruct (Nat.ltb_spec (length promises + 1) MAX_NON_SYNCHRONIZED_NODES) as [L|L];
        destruct (Nat.ltb_spec (length promises) MAX_NON_SYNCHRONIZED_NODES) as [L'|L'];
        try lia; simpl; reflexivity.
Qed.

Lemma generateGeoContext_loop_concat (incrProg : JsNumber) (stream : list PendingWrite) :
  forall (promises : list PendingWrite) (progression : JsNumber),
    let '(steps, final, _) :=
      generateGeoContext_loop incrProg stream promises progression in
    concat (waits steps) ++ final = promises ++ stream
    /\ pending_after (length promises) steps = length final.
Proof.
  induction stream as [|w stream IH]; intros promises progression; simpl.
  - rewrite app_nil_r. auto.
  - destruct (Nat.eqb_spec (length (promises ++ [w])) MAX_NON_SYNCHRONIZED_NODES) as [E|E].
    + specialize (IH [] (js_add progression incrProg)).
      destruct (generateGeoContext_loop incrProg stream [] _) as [[steps final] p2].
      destruct IH as [Hc Hp]. simpl in *. split; [|assumption].
      now rewrite <- !app_assoc, Hc.
    + specialize (IH (promises ++ [w]) progression).
      destruct (generateGeoContext_loop incrProg stream (promises ++ [w]) _)
        as [[steps final] p2].
      destruct IH as [Hc Hp]. simpl. split; [now rewrite Hc, <- app_assoc|].
      rewrite length_app in Hp. simpl in Hp.
      now replace (S (length promises)) with (length promises + 1) by lia.
Qed.

Lemma GenerateGeoContext_loop_pending (stream : list PendingWrite) :
  forall (promises : list PendingWrite) (n : nat),
    promises ++ stream <> [] ->
    pending_after n (fst (GenerateGeoContext_loop stream promises)
                     ++ finalWait (snd (GenerateGeoContext_loop stream promises))) = 0.
Proof.
  induction stream as [|w stream IH]; intros promises n Hne; simpl.
  - rewrite app_nil_r in Hne. destruct promises; [contradiction|reflexivity].
  - assert (Hne' : (promises ++ [w]) ++ stream <> []).
    { destruct promises; simpl; discriminate. }
    pose proof (fun m => IH (promises ++ [w]) m Hne') as H.
    destruct (GenerateGeoContext_loop stream (promises ++ [w])) as [steps final].
    simpl in H.
    destruct (Nat.eqb (length (promises ++ [w])) MAX_NON_SYNCHRONIZED_NODES); simpl;
      apply H.
Qed.

Lemma unconfirmed_app (a b : list Step) :
  forall n, unconfirmed n (a ++ b) = unconfirmed n a ++ unconfirmed (pending_after n a) b.
Proof.
  induction a as [|s a IH]; intros n; simpl; [reflexivity|].
  destruct s; simpl; now rewrite IH.
Qed.

Lemma pending_after_app (a b : list Step) :
  forall n, pending_after n (a ++ b) = pending_after (pending_after n a) b.
Proof.
  induction a as [|s a IH]; intros n; simpl; [reflexivity|].
  destruct s; simpl; now rewrite IH.
Qed.

(** X10: the waits of any run of [GenerateGeoContext]: the first 300 writes
    once, if there are that many, and then all the writes together, if there
    is any; a run of exactly 300 writes waits twice for the same batch.  At
    the end nothing is left unconfirmed. *)
Theorem GenerateGeoContext_waits_at_most_twice
    (hasProperties : list Z -> list string -> list Item)
    (createTmpTree : list Item -> TmpTree)
    (context : Node) (layout : Layout) (referencial : list Z) (g : Graph) :
  let r := GenerateGeoContext hasProperties createTmpTree context layout referencial g in
  let ws := yielded (run_events r) in
  waits (run_steps r)
  = (if MAX_NON_SYNCHRONIZED_NODES <=? length ws
     then [firstn MAX_NON_SYNCHRONIZED_NODES ws] else [])
    ++ match ws with [] => [] | _ :: _ => [ws] end
  /\ pending_after 0 (run_steps r) = 0.
Proof.
  unfold GenerateGeoContext.
  destruct (Nat.eqb (length (hasProperties referencial (keys layout))) 0).
  - simpl. split; [|reflexivity].
    destruct (Nat.leb_spec MAX_NON_SYNCHRONIZED_NODES 0) as [M|M]; [|reflexivity].
    pose proof MAX_NON_SYNCHRONIZED_NODES_positive. lia.
  - destruct (GenerateGeoContextRec context context _ layout 0 (getContext g))
      as [evs g1].
    pose proof (GenerateGeoContext_loop_waits (yielded evs) []) as W.
    pose proof (GenerateGeoContext_loop_keeps_batch (yielded evs) []) as K.
    pose proof (fun n => GenerateGeoContext_loop_pending (yielded evs) [] n) as P.
    destruct (GenerateGeoContext_loop (yielded evs) []) as [steps final] eqn:Loop.
    destruct K as [Hf _]. simpl in Hf, W, P. subst final.
    cbn [run_steps run_events].
    change ([HasProperties referencial (keys layout); GetContext]
            ++ CreateTmpTree (hasProperties referencial (keys layout))
               :: steps ++ finalWait (yielded evs))
      with ([HasProperties referencial (keys layout); GetContext;
             CreateTmpTree (hasProperties referencial (keys layout))]
            ++ steps ++ finalWait (yielded evs)).
    split.
    + rewrite !waits_app, W, waits_finalWait. simpl.
      destruct (Nat.ltb_spec 0 MAX_NON_SYNCHRONIZED_NODES) as [L|L]; [reflexivity|].
      pose proof MAX_NON_SYNCHRONIZED_NODES_positive. lia.
    + rewrite pending_after_app. cbn [pending_after].
      destruct (yielded evs) as [|w ws'] eqn:Y.
      * simpl in Loop. injection Loop as <-. reflexivity.
      * apply P. discriminate.
Qed.

(** X11: in any run of [generateGeoContext] every write is waited for
    exactly once and in order: the waits are batches of exactly 300 writes
    followed, when writes remain, by one last batch of fewer than 300, and
    put end to end they are the writes of the run. *)
Theorem generateGeoContext_every_write_waited_once
    (createTmpTree : list Item -> TmpTree)
    (context : Node) (layout : Layout) (props : list Item) (g : Graph) :
  let r := generateGeoContext createTmpTree context layout props g in
  exists full rest,
    waits (run_steps r) = full ++ waits (finalWait rest)
    /\ Forall (fun b => length b = MAX_NON_SYNCHRONIZED_NODES) full
    /\ length rest < MAX_NON_SYNCHRONIZED_NODES
    /\ concat full ++ rest = yielded (run_events r).
Proof.
  unfold generateGeoContext.
  destruct (generateGeoContextRec context context (createTmpTree props) layout 0 g)
    as [evs g1].
  set (incr := js_div_pos _ (length props)).
  set (p1 := js_add _ _).
  pose proof (generateGeoContext_loop_bound incr (yielded evs) [] p1) as B.
  pose proof (generateGeoContext_loop_concat incr (yielded evs) [] p1) as C.
  destruct (generateGeoContext_loop incr (yielded evs) [] p1) as [[steps final] p2].
  destruct B as [_ [Hfull Hrest]]; [apply MAX_NON_SYNCHRONIZED_NODES_positive|].
  destruct C as [Hc _]. simpl in Hc.
  exists (waits steps), final. cbn [run_steps run_events].
  split; [|auto].
  change (SetProgress (Finite PROGRESS_BAR_SIZE_GET_PROPS) :: CreateTmpTree props
            :: SetProgress p1 :: steps ++ finalWait final ++ [SetProgress (Finite 100)])
    with ([SetProgress (Finite PROGRESS_BAR_SIZE_GET_PROPS); CreateTmpTree props;
           SetProgress p1] ++ steps ++ finalWait final ++ [SetProgress (Finite 100)]).
  rewrite !waits_app. simpl. now rewrite app_nil_r.
Qed.

(** X12: in any run of [generateGeoContext] the number of writes pushed and
    not yet covered by a wait never exceeds 300, and is 0 when the run
    ends. *)
Theorem generateGeoContext_unconfirmed_bound
    (createTmpTree : list Item -> TmpTree)
    (context : Node) (layout : Layout) (props : list Item) (g : Graph) :
  let r := generateGeoContext createTmpTree context layout props g in
  Forall (fun n => n <= MAX_NON_SYNCHRONIZED_NODES) (unconfirmed 0 (run_steps r))
  /\ pending_after 0 (run_steps r) = 0.
Proof.
  unfold generateGeoContext.
  destruct (generateGeoContextRec context context (createTmpTree props) layout 0 g)
    as [evs g1].
  set (incr := js_div_pos _ (length props)).
  set (p1 := js_add _ _).
  pose proof (generateGeoContext_loop_bound incr (yielded evs) [] p1) as B.
  pose proof (generateGeoContext_loop_concat incr (yielded evs) [] p1) as C.
  destruct (generateGeoContext_loop incr (yielded evs) [] p1) as [[steps final] p2].
  destruct B as [Hu [_ Hrest]]; [apply MAX_NON_SYNCHRONIZED_NODES_positive|].
  destruct C as [_ Hp]. simpl in Hu, Hp.
  cbn [run_steps]. cbn [unconfirmed pending_after].
  rewrite unconfirmed_app, pending_after_app, Hp.
  split.
  - repeat (constructor; [lia|]). apply Forall_app. split; [assumption|].
    destruct final; simpl; repeat (constructor; try lia).
  - destruct final; reflexivity.
Qed.

Lemma generateGeoContext_loop_steps (incrProg : JsNumber) (stream : list PendingWrite) :
  forall (promises : list PendingWrite) (progression : JsNumber),
    ~ In GetContext
         (fst (fst (generateGeoContext_loop incrProg stream promises progression))).
Proof.
  induction stream as [|w stream IH]; intros promises progression; simpl; [tauto|].
  destruct (Nat.eqb (length (promises ++ [w])) MAX_NON_SYNCHRONIZED_NODES).
  - specialize (IH [] (js_add progression incrProg)).
    destruct (generateGeoContext_loop incrProg stream [] _) as [[steps final] p2].
    simpl in *. intros [H|[H|[H|H]]]; try discriminate. contradiction.
  - specialize (IH (promises ++ [w]) progression).
    destruct (generateGeoContext_loop incrProg stream (promises ++ [w]) _)
      as [[steps final] p2].
    simpl in *. intros [H|H]; [discriminate|contradiction].
Qed.

(** X13: the links, attachments and identities of the store an entry point
    leaves are those of the store it was given plus exactly what the yielded
    writes announce; [GenerateGeoContext] calls
    [bimObjectService.getContext()] in every run, on both of its paths, and
    [generateGeoContext] never calls it. *)
Theorem entry_points_announce
    (hasProperties : list Z -> list string -> list Item)
    (createTmpTree : list Item -> TmpTree)
    (context : Node) (layout : Layout) (referencial : list Z) (props : list Item)
    (g : Graph) :
  (let r := GenerateGeoContext hasProperties createTmpTree context layout referencial g in
   In GetContext (run_steps r)
   /\ edges (run_graph r) = edges g ++ written_edges (yielded (run_events r))
   /\ bimObjects (run_graph r) = bimObjects g ++ written_bim (yielded (run_events r))
   /\ next_id (run_graph r) = next_id g + length (creations (yielded (run_events r))))
  /\ (let r := generateGeoContext createTmpTree context layout props g in
      ~ In GetContext (run_steps r)
      /\ edges (run_graph r) = edges g ++ written_edges (yielded (run_events r))
      /\ bimObjects (run_graph r) = bimObjects g ++ written_bim (yielded (run_events r))
      /\ next_id (run_graph r) = next_id g + length (creations (yielded (run_events r)))).
Proof.
  split.
  - unfold GenerateGeoContext.
    destruct (Nat.eqb (length (hasProperties referencial (keys layout))) 0).
    + simpl. rewrite !app_nil_r. repeat split; auto.
    + pose proof (by_child_materialize (createTmpTree (hasProperties referencial (keys layout)))
                    context context layout 0 (getContext g)) as E.
      pose proof (materialize_announces context layout
                    (createTmpTree (hasProperties referencial (keys layout)))
                    context 0 (getContext g)) as [H _].
      rewrite <- E in H. simpl in H.
      destruct (GenerateGeoContextRec context context _ layout 0 (getContext g))
        as [evs g1].
      destruct (GenerateGeoContext_loop (yielded evs) []) as [steps final].
      destruct H as [He [Hb [Hn _]]]. simpl in *.
      split; [auto|]. split; [assumption|]. split; assumption.
  - unfold generateGeoContext.
    pose proof (by_names_materialize (createTmpTree props) context context layout 0 g) as E.
    pose proof (materialize_announces context layout (createTmpTree props) context 0 g)
      as [H _].
    rewrite <- E in H. simpl in H.
    destruct (generateGeoContextRec context context (createTmpTree props) layout 0 g)
      as [evs g1].
    set (incr := js_div_pos _ (length props)).
    set (p1 := js_add _ _).
    pose proof (generateGeoContext_loop_steps incr (yielded evs) [] p1) as N.
    destruct (generateGeoContext_loop incr (yielded evs) [] p1) as [[steps final] p2].
    destruct H as [He [Hb [Hn _]]]. cbn [run_steps run_events run_graph fst] in *.
    split; [|split; [assumption|split; assumption]].
    intros [H|[H|[H|H]]]; try discriminate.
    apply in_app_or in H. destruct H as [H|H]; [contradiction|].
    apply in_app_or in H. destruct H as [H|[H|[]]]; [|discriminate].
    destruct final; simpl in H; [contradiction|]. destruct H as [H|[]]. discriminate.
Qed.
